(** * rpmpack: the RPM lead and header index encoder (header.go)

    A shallow embedding of [header.go] and the properties of its byte
    layout.  Go values are modelled as follows.

    - [int] is [Z].  The only [int] arithmetic in the file is on lengths
      and on small constants, so no 64-bit wrap-around can be observed;
      the conversions [int32(x)] and [uint32(x)], which do wrap, are
      written out ([int32], [uint32]).
    - [byte] is [Byte.byte], [[]byte] and [bytes.Buffer] are [list byte].
    - a Go [string] is a [String.string]: a sequence of 8-bit characters.
    - [map[int]indexEntry] is a [gmap Z indexEntry].  The order in which
      [range] yields the keys of a map is not fixed by the language, so
      the functions that range over the map take that order as a
      parameter ([range_order]), of which the theorems assume only that
      it rearranges the keys.
    - a run-time panic is [None] in the option monad.
    - [io.Writer] is the class [Writer]: a state and a [Write] method
      that reports an optional error. *)

From Stdlib Require Import ZArith List Lia.
From Stdlib Require Import Strings.String Strings.Ascii Strings.Byte.
From stdpp Require Import base option list gmap sorting.
Import ListNotations.

Local Open Scope Z_scope.

(** ** Library functions used by the source *)

Module Go.

(** [int32(x)]: the low 32 bits of [x], read as a signed number. *)
Definition int32 (z : Z) : Z := (z + 2 ^ 31) mod 2 ^ 32 - 2 ^ 31.

(** [uint32(x)]: the low 32 bits of [x]. *)
Definition uint32 (z : Z) : Z := z mod 2 ^ 32.

(** [byte(x)]: the low 8 bits of [x]. *)
Definition byte_of (z : Z) : byte :=
  default x00 (Byte.of_N (Z.to_N (Z.land z 255))).

(** [len(x)], an [int]. *)
Definition len {A} (l : list A) : Z := Z.of_nat (length l).

(** [[]byte(s)] for a string [s]. *)
Definition bytes_of_string (s : string) : list byte :=
  list_byte_of_string s.

(** [make([]byte, n)]: [n] zero bytes; panics when [n] is negative. *)
Definition make_bytes (n : Z) : option (list byte) :=
  if n <? 0 then None else Some (replicate (Z.to_nat n) x00).

(** [bytes.Join(s, sep)]. *)
Fixpoint bytes_Join (s : list (list byte)) (sep : list byte) : list byte :=
  match s with
  | [] => []
  | v :: rest =>
      match rest with
      | [] => v
      | _ :: _ => v ++ sep ++ bytes_Join rest sep
      end
  end.

(** [binary.BigEndian.PutUint32]. *)
Definition PutUint32 (v : Z) : list byte :=
  [byte_of (Z.shiftr v 24); byte_of (Z.shiftr v 16);
   byte_of (Z.shiftr v 8); byte_of v].

(** [binary.BigEndian.Uint32], the inverse reading. *)
Definition Uint32 (b : list byte) : Z :=
  match b with
  | [b0; b1; b2; b3] =>
      Z.lor (Z.lor (Z.lor (Z.shiftl (Z.of_N (Byte.to_N b0)) 24)
                          (Z.shiftl (Z.of_N (Byte.to_N b1)) 16))
                   (Z.shiftl (Z.of_N (Byte.to_N b2)) 8))
            (Z.of_N (Byte.to_N b3))
  | _ => 0
  end.

(** The bytes [binary.Write(_, binary.BigEndian, data)] produces for
    [data : []int32]: four bytes for each element, in order. *)
Definition int32s_bytes (data : list Z) : list byte :=
  flat_map (fun v => PutUint32 (uint32 v)) data.

(** [sort.Ints]. *)
Definition sort_Ints (t : list Z) : list Z := merge_sort Z.le t.

(** Go's [error]. *)
Definition error : Type := string.

(** [io.Writer]: [Write(p)] consumes [p] and reports an error or nil.
    The number of bytes written, which [header.go] never reads, is
    left out. *)
Class Writer (W : Type) := writer_Write : W -> list byte -> W * option error.

(** [*bytes.Buffer]: [Write] appends and never returns an error. *)
Definition Buffer : Type := list byte.

#[export] Instance Buffer_Writer : Writer Buffer :=
  fun b p => (b ++ p, None).

(** [binary.Write(w, binary.BigEndian, data)] for [data : []int32]:
    one [w.Write] of the encoded bytes, whose error is returned. *)
Definition binary_Write `{Writer W} (w : W) (data : list Z) : W * option error :=
  writer_Write w (int32s_bytes data).

End Go.

Import Go.

(** ** header.go *)

Definition signatures : Z := 0x3e.
Definition immutable : Z := 0x3f.

Definition typeInt32 : Z := 0x04.
Definition typeBinary : Z := 0x07.
Definition typeStringArray : Z := 0x08.

Definition boundaries : gmap Z Z := {[ typeInt32 := 4 ]}.

Record indexEntry : Type := IndexEntry {
  rpmtype : Z;
  count : Z;
  data : list byte
}.

(** The zero value of [indexEntry], which a map lookup of an absent key
    returns. *)
Definition zeroEntry : indexEntry := IndexEntry 0 0 [].

Definition indexBytes (e : indexEntry) (tag contentOffset : Z) : list byte :=
  let b : Buffer := [] in
  let b := (binary_Write b
              [int32 tag; int32 (rpmtype e); int32 contentOffset; int32 (count e)]).1 in
  b.

Definition StringArrayEntry (value : list string) : indexEntry :=
  let b := foldl (fun b v => b ++ [bytes_of_string v]) [] value in
  let bb := bytes_Join b [x00] ++ [x00] in
  IndexEntry typeStringArray (len value) bb.

Definition BinaryEntry (value : list byte) : indexEntry :=
  IndexEntry typeBinary (len value) value.

Definition Int32Entry (value : list Z) : indexEntry :=
  let b : Buffer := [] in
  let b := (binary_Write b value).1 in
  IndexEntry typeInt32 (len value) b.

Record index : Type := Index {
  entries : gmap Z indexEntry;
  size : Z;
  h : Z
}.

Definition NewIndex (h : Z) : index := Index ∅ 0 h.

(** Methods with the receiver [i *index] return the index they leave
    behind. *)
Definition Add (i : index) (tag : Z) (e : indexEntry) : index :=
  Index (<[tag := e]> (entries i)) (size i) (h i).

(** [i.entries[tag]]: the entry, or the zero value for an absent key. *)
Definition entries_at (i : index) (tag : Z) : indexEntry :=
  default zeroEntry (entries i !! tag).

(** [len(i.entries)]. *)
Definition len_entries (i : index) : Z := Z.of_nat (base.size (entries i)).

Definition pad `{Writer W} (w : W) (rpmtype offset : Z) : option W :=
  match boundaries !! rpmtype with
  | Some b =>
      if negb (Z.rem offset b =? 0) then
        z ← make_bytes (b - Z.rem offset b);
        Some (writer_Write w z).1
      else Some w
  | None => Some w
  end.

Definition eigenHeader (i : index) : indexEntry :=
  let b : Buffer := [] in
  let b := (binary_Write b
              [int32 (h i); int32 typeBinary;
               int32 (- int32 (0x10 * (len_entries i + 1))); int32 0x10]).1 in
  BinaryEntry b.

(** The first loop of [Write], from position [ii] of [tags] on: pad,
    record the offset, append the data.  An assignment to [offsets[ii]]
    out of range panics. *)
Fixpoint Write_place (i : index) (tags : list Z) (ii : nat)
    (entryData : Buffer) (offsets : list Z) : option (Buffer * list Z) :=
  match tags with
  | [] => Some (entryData, offsets)
  | tag :: tags =>
      let e := entries_at i tag in
      entryData ← pad entryData (rpmtype e) (len entryData);
      guard (ii < length offsets)%nat;;
      let offsets := <[ii := len entryData]> offsets in
      let entryData := (writer_Write entryData (data e)).1 in
      Write_place i tags (S ii) entryData offsets
  end.

(** The second loop of [Write]: one index record for each tag.  Reading
    [offsets[ii]] out of range panics. *)
Fixpoint Write_records `{Writer W} (i : index) (tags : list Z) (ii : nat)
    (offsets : list Z) (w : W) : option W :=
  match tags with
  | [] => Some w
  | tag :: tags =>
      let e := entries_at i tag in
      off ← offsets !! ii;
      let w := (writer_Write w (indexBytes e tag off)).1 in
      Write_records i tags (S ii) offsets w
  end.

Section Serialize.

(** The order in which [for k := range i.entries] yields the keys: some
    rearrangement of them, not fixed by the language. *)
Variable range_order : list Z → list Z.

Definition sortedTags (i : index) : list Z :=
  let t := foldl (fun t k => t ++ [k]) [] (range_order (map_to_list (entries i)).*1) in
  sort_Ints t.

Definition Write `{Writer W} (i : index) (w : W) : option (index * W * option error) :=
  let entryData : Buffer := [] in
  let tags := sortedTags i in
  let offsets := replicate (length tags) 0 in
  '(entryData, offsets) ← Write_place i tags 0 entryData offsets;
  let entryData := (writer_Write entryData (data (eigenHeader i))).1 in
  let w := (writer_Write w [x8e; xad; xe8; x01; x00; x00; x00; x00]).1 in
  let '(w, err) :=
    binary_Write w [int32 (int32 (len_entries i) + 1); int32 (len entryData)] in
  match err with
  | Some err => Some (i, w, Some err)
  | None =>
      let w := (writer_Write w
                  (indexBytes (eigenHeader i) (h i) (len entryData - 0x10))).1 in
      w ← Write_records i tags 0 offsets w;
      let w := (writer_Write w entryData).1 in
      Some (i, w, None)
  end.

End Serialize.

(** [fmt.Sprintf("%s-%s-%s", name, version, release)]. *)
Definition Sprintf_nvr (name version release : string) : string :=
  String.append name
    (String.append "-" (String.append version (String.append "-" release))).

Definition Lead (name version release : string) : option (list byte) :=
  let n := bytes_of_string (Sprintf_nvr name version release) in
  let n := if 65 <? len n then take 65 n else n in
  z ← make_bytes (66 - len n);
  let n := n ++ z in
  let b := [xed; xab; xee; xdb; x03; x00; x00; x00; x00; x01] in
  let b := b ++ n in
  let b := b ++ [x00; x01; x00; x05] in
  z ← make_bytes 16;
  let b := b ++ z in
  Some b.

(** ** Writers *)

(** A writer that has room for [room] more bytes and fails with a short
    write once it is full, as a file on a full disk or a fixed buffer
    does. *)
Record limitedWriter : Type := LimitedWriter {
  written : list byte;
  room : nat
}.

#[export] Instance limitedWriter_Writer : Writer limitedWriter :=
  fun w p =>
    if decide (length p ≤ room w)%nat
    then (LimitedWriter (written w ++ p) (room w - length p), None)
    else (LimitedWriter (written w ++ take (room w) p) 0, Some "short write"%string).

(** A writer that forwards to another one and keeps the result of every
    [Write] it was asked to do. *)
Record recorder (W : Type) : Type := Recorder {
  inner : W;
  results : list (option error)
}.
Arguments Recorder {W} _ _.
Arguments inner {W} _.
Arguments results {W} _.

#[export] Instance recorder_Writer `{Writer W} : Writer (recorder W) :=
  fun r p =>
    let '(w, err) := writer_Write (inner r) p in
    (Recorder w (results r ++ [err]), err).

(** ** Notions used to state the layout *)

(** A run of [Write] calls on one writer whose errors are dropped. *)
Definition write_all `{Writer W} (w : W) (ps : list (list byte)) : W :=
  foldl (fun w p => (writer_Write w p).1) w ps.

(** The bytes [pad] puts in front of an entry of type [rpmtype] that
    would otherwise start at [offset]. *)
Definition padding (rpmtype offset : Z) : list byte :=
  if decide (rpmtype = typeInt32 ∧ offset mod 4 ≠ 0)
  then replicate (Z.to_nat (4 - offset mod 4)) x00
  else [].

(** The blob and the offsets the first loop of [Write] arrives at, as a
    function of the tags and of the blob so far. *)
Fixpoint place (i : index) (tags : list Z) (blob : list byte) : list byte * list Z :=
  match tags with
  | [] => (blob, [])
  | tag :: tags =>
      let e := entries_at i tag in
      let blob := blob ++ padding (rpmtype e) (len blob) in
      let r := place i tags (blob ++ data e) in
      (r.1, len blob :: r.2)
  end.

(** The index record of the entry at [tag], placed at [offset]. *)
Definition record_of (i : index) (tag offset : Z) : list byte :=
  indexBytes (entries_at i tag) tag offset.

(** ** Readers, to state what can be read back *)

(** The big-endian 32-bit words of a byte sequence, four bytes at a time
    as [binary.BigEndian.Uint32] reads them; bytes short of a word at the
    end are left out. *)
Fixpoint Uint32s (b : list byte) : list Z :=
  match b with
  | b0 :: b1 :: b2 :: b3 :: rest => Uint32 [b0; b1; b2; b3] :: Uint32s rest
  | _ => []
  end.

(** The NUL-terminated strings of a byte sequence, in order, [cur] being
    the bytes of the string under way; bytes after the last NUL are left
    out. *)
Fixpoint read_strings (cur : list byte) (b : list byte) : list (list byte) :=
  match b with
  | [] => []
  | c :: rest =>
      if Byte.eqb c x00 then cur :: read_strings [] rest
      else read_strings (cur ++ [c]) rest
  end.

(** The bytes of [out] from position [from], [n] of them. *)
Definition slice (out : list byte) (from n : nat) : list byte :=
  take n (drop from out).

(** ** Sample inputs *)

(** An index with a string array, an integer array and a binary entry,
    added out of tag order. *)
Definition sample_index : index :=
  Add (Add (Add (NewIndex immutable)
              1001 (Int32Entry [7]))
         1000 (StringArrayEntry ["a"%string]))
    1002 (BinaryEntry [x01]).

(** The same entries added in another order. *)
Definition sample_index' : index :=
  Add (Add (Add (NewIndex immutable)
              1002 (BinaryEntry [x01]))
         1001 (Int32Entry [7]))
    1000 (StringArrayEntry ["a"%string]).

(** A sink with room for the magic, the count and the size only. *)
Definition full_disk : recorder limitedWriter :=
  Recorder (LimitedWriter [] 16) [].

(** * Properties *)

(** ** The library functions *)

Lemma len_nonneg {A} (l : list A) : 0 ≤ len l.
Proof. unfold len. lia. Qed.

Lemma len_app {A} (l k : list A) : len (l ++ k) = len l + len k.
Proof. unfold len. rewrite length_app. lia. Qed.

Lemma uint32_int32 z : uint32 (int32 z) = uint32 z.
Proof.
  unfold uint32, int32. rewrite Zminus_mod_idemp_l. f_equal. lia.
Qed.

Lemma uint32_int32_opp z : uint32 (int32 (- int32 z)) = uint32 (- z).
Proof.
  rewrite uint32_int32. unfold uint32.
  rewrite <- (Z.sub_0_l (int32 z)), <- (Z.sub_0_l z).
  rewrite <- Zminus_mod_idemp_r. fold (uint32 (int32 z)).
  rewrite uint32_int32. unfold uint32. by rewrite Zminus_mod_idemp_r.
Qed.

Lemma uint32_int32_succ z : uint32 (int32 (int32 z + 1)) = uint32 (z + 1).
Proof.
  rewrite uint32_int32. unfold uint32.
  rewrite <- Zplus_mod_idemp_l. fold (uint32 (int32 z)).
  rewrite uint32_int32. unfold uint32. by rewrite Zplus_mod_idemp_l.
Qed.

Lemma to_N_byte_of z : Z.of_N (Byte.to_N (byte_of z)) = z mod 256.
Proof.
  unfold byte_of. change 255 with (Z.ones 8). rewrite Z.land_ones by lia.
  change (2 ^ 8) with 256.
  assert (Hr : 0 ≤ z mod 256 < 256) by (apply Z.mod_pos_bound; lia).
  destruct (Byte.of_N (Z.to_N (z mod 256))) as [b|] eqn:Hb.
  - simpl. apply Byte.to_of_N in Hb. rewrite Hb. lia.
  - apply Byte.of_N_None_iff in Hb. lia.
Qed.

Lemma lor_add_aligned x b k :
  0 ≤ k → x mod 2 ^ k = 0 → 0 ≤ b < 2 ^ k → Z.lor x b = x + b.
Proof.
  intros Hk Hx Hb. symmetry. apply Z.add_nocarry_lor.
  apply Z.bits_inj'. intros n Hn.
  rewrite Z.land_spec, Z.bits_0.
  destruct (Z.lt_ge_cases n k) as [Hlt|Hge].
  - rewrite <- (Z.mod_pow2_bits_low x k n) by lia.
    by rewrite Hx, Z.bits_0.
  - rewrite <- (Z.mod_small b (2 ^ k)) by lia.
    rewrite Z.mod_pow2_bits_high by lia. apply andb_false_r.
Qed.

(** Reading back what [PutUint32] wrote gives the 32-bit value. *)
Lemma Uint32_PutUint32 z : Uint32 (PutUint32 (uint32 z)) = z mod 2 ^ 32.
Proof.
  unfold Uint32, PutUint32, uint32. rewrite !to_N_byte_of.
  rewrite !Z.shiftr_div_pow2, !Z.shiftl_mul_pow2 by lia.
  set (v := z mod 2 ^ 32).
  assert (Hv : 0 ≤ v < 2 ^ 32) by (apply Z.mod_pos_bound; lia).
  clearbody v. clear z.
  change (2 ^ 24) with 16777216 in *. change (2 ^ 16) with 65536 in *.
  change (2 ^ 8) with 256 in *. change (2 ^ 32) with 4294967296 in *.
  rewrite (lor_add_aligned (_ * 16777216) (_ * 65536) 24);
    [rewrite (lor_add_aligned (_ + _ * 65536) (_ * 256) 16);
      [rewrite (lor_add_aligned (_ + _ * 256) _ 8)|..]|..];
    try lia;
    change (2 ^ 24) with 16777216; change (2 ^ 16) with 65536;
    change (2 ^ 8) with 256;
    Z.to_euclidean_division_equations; lia.
Qed.

Lemma foldl_snoc_map {A B} (f : A → B) (l : list A) (acc : list B) :
  foldl (fun b v => b ++ [f v]) acc l = acc ++ map f l.
Proof.
  revert acc. induction l as [|x l IH]; intros acc; simpl.
  - by rewrite app_nil_r.
  - rewrite IH. by rewrite <- app_assoc.
Qed.

Lemma bytes_Join_terminated (s : list (list byte)) (sep : list byte) :
  s ≠ [] → bytes_Join s sep ++ sep = flat_map (fun v => v ++ sep) s.
Proof.
  induction s as [|v [|v' s] IH]; intros Hne; [done| |].
  - simpl. by rewrite app_nil_r.
  - change (bytes_Join (v :: v' :: s) sep) with (v ++ sep ++ bytes_Join (v' :: s) sep).
    change (flat_map (fun v => v ++ sep) (v :: v' :: s))
      with ((v ++ sep) ++ flat_map (fun v => v ++ sep) (v' :: s)).
    rewrite <- IH by done. by rewrite <- !app_assoc.
Qed.

Lemma bytes_of_string_append (s t : string) :
  bytes_of_string (String.append s t) = bytes_of_string s ++ bytes_of_string t.
Proof.
  unfold bytes_of_string, list_byte_of_string.
  induction s as [|c s IH]; simpl; [done|]. by rewrite IH.
Qed.

Lemma make_bytes_nonneg (n : Z) :
  0 ≤ n → make_bytes n = Some (replicate (Z.to_nat n) x00).
Proof. intros Hn. unfold make_bytes. by rewrite (proj2 (Z.ltb_ge n 0)). Qed.

(** ** The entry constructors *)

(** C1, as the source has it: the entry has type StringArray and counts
    the strings; for at least one string its data is every string
    followed by one NUL byte, in order, and nothing after the last
    string's terminator; for no string at all it is a single NUL byte. *)
Theorem StringArrayEntry_layout (value : list string) :
  rpmtype (StringArrayEntry value) = typeStringArray ∧
  count (StringArrayEntry value) = len value ∧
  data (StringArrayEntry value) =
    match value with
    | [] => [x00]
    | _ :: _ => flat_map (fun v => bytes_of_string v ++ [x00]) value
    end.
Proof.
  split; [done|]. split; [done|].
  unfold StringArrayEntry. cbn [data].
  rewrite foldl_snoc_map, app_nil_l.
  destruct value as [|v value]; [done|].
  rewrite bytes_Join_terminated by done.
  by rewrite flat_map_concat_map, map_map, <- flat_map_concat_map.
Qed.

(** C1 as the specification words it fails on its own example: the data
    of ["a"; "bb"] has no NUL byte after the terminator of "bb". *)
Lemma StringArrayEntry_no_extra_NUL :
  data (StringArrayEntry ["a"; "bb"]%string) = [x61; x00; x62; x62; x00] ∧
  data (StringArrayEntry ["a"; "bb"]%string) ≠ [x61; x00; x62; x62; x00; x00] ∧
  data (StringArrayEntry ["a"; "bb"]%string) ≠
    flat_map (fun v => bytes_of_string v ++ [x00]) ["a"; "bb"]%string ++ [x00].
Proof. split_and!; vm_compute; congruence. Qed.

(** C10: the entry of the empty sequence of strings has count 0 and its
    data is exactly one NUL byte, not the empty byte sequence. *)
Theorem StringArrayEntry_empty :
  count (StringArrayEntry []) = 0 ∧
  data (StringArrayEntry []) = [x00] ∧
  data (StringArrayEntry []) ≠ [].
Proof. split_and!; vm_compute; congruence. Qed.

(** ** The lead *)

(** C8: for all names, versions and releases [Lead] returns (it does not
    panic) 96 bytes: bytes 0-3 are ed ab ee db, bytes 10-75 are
    "name-version-release" cut to at most 65 bytes and filled with zero
    bytes to 66, and the last 16 bytes are zero. *)
Theorem Lead_layout (name version release : string) :
  let nvr := bytes_of_string name ++ [x2d] ++ bytes_of_string version
             ++ [x2d] ++ bytes_of_string release in
  ∃ b : list byte,
    Lead name version release = Some b ∧
    length b = 96%nat ∧
    take 4 b = [xed; xab; xee; xdb] ∧
    take 66 (drop 10 b) =
      take 65 nvr ++ replicate (66 - length (take 65 nvr)) x00 ∧
    length (take 65 nvr) = (length nvr `min` 65)%nat ∧
    drop 80 b = replicate 16 x00.
Proof.
  intros nvr. unfold Lead.
  assert (Hn : bytes_of_string (Sprintf_nvr name version release) = nvr).
  { unfold Sprintf_nvr. by rewrite !bytes_of_string_append. }
  rewrite Hn. clearbody nvr.
  assert (Hcut : (if 65 <? len nvr then take 65 nvr else nvr) = take 65 nvr).
  { unfold len. destruct (Z.ltb_spec 65 (Z.of_nat (length nvr))); [done|].
    rewrite take_ge; [done|lia]. }
  rewrite Hcut. set (n := take 65 nvr).
  assert (Hlen : (length n ≤ 65)%nat) by (subst n; rewrite length_take; lia).
  rewrite (make_bytes_nonneg (66 - len n)) by (unfold len; lia).
  rewrite (make_bytes_nonneg 16) by lia. cbn [mbind option_bind].
  replace (Z.to_nat (66 - len n)) with (66 - length n)%nat by (unfold len; lia).
  set (field := n ++ replicate (66 - length n) x00).
  assert (Hfield : length field = 66%nat).
  { subst field. rewrite length_app, length_replicate. lia. }
  rewrite <- !app_assoc. cbn [app].
  eexists. split_and!; [reflexivity|..].
  - cbn [length]. rewrite length_app, Hfield. reflexivity.
  - reflexivity.
  - cbn [drop]. rewrite drop_0, take_app_length' by done. reflexivity.
  - subst n. rewrite length_take. lia.
  - cbn [drop]. rewrite drop_app_ge by lia. rewrite Hfield. reflexivity.
Qed.

(** ** The first loop of [Write]: placing the entries *)

Lemma pad_Buffer (b : Buffer) (t o : Z) :
  0 ≤ o → pad b t o = Some (b ++ padding t o).
Proof.
  intros Ho. unfold pad, padding, boundaries.
  rewrite lookup_singleton. destruct (decide (typeInt32 = t)) as [<-|Hne].
  - rewrite Z.rem_mod_nonneg by lia.
    assert (Hm : 0 ≤ o mod 4 < 4) by (apply Z.mod_pos_bound; lia).
    destruct (Z.eqb_spec (o mod 4) 0) as [Hz|Hnz]; cbn [negb].
    + rewrite decide_False by tauto. by rewrite app_nil_r.
    + rewrite decide_True by tauto.
      by rewrite make_bytes_nonneg by lia.
  - rewrite decide_False by (intros [? _]; congruence). by rewrite app_nil_r.
Qed.

Lemma place_length i tags blob : length (place i tags blob).2 = length tags.
Proof.
  revert blob. induction tags as [|tag tags IH]; intros blob; [done|].
  cbn [place snd length]. by rewrite IH.
Qed.

Lemma place_app i tags1 tags2 blob :
  place i (tags1 ++ tags2) blob =
    ((place i tags2 (place i tags1 blob).1).1,
     (place i tags1 blob).2 ++ (place i tags2 (place i tags1 blob).1).2).
Proof.
  revert blob. induction tags1 as [|tag tags1 IH]; intros blob.
  - cbn. by destruct (place i tags2 blob).
  - cbn [app place fst snd]. by rewrite IH.
Qed.

Lemma place_prefix i tags blob : blob `prefix_of` (place i tags blob).1.
Proof.
  revert blob. induction tags as [|tag tags IH]; intros blob; [done|].
  cbn [place fst]. etrans; [|apply IH].
  rewrite <- app_assoc. by apply prefix_app_r.
Qed.

Lemma Write_place_place i tags ii (blob : Buffer) offsets :
  (ii + length tags ≤ length offsets)%nat →
  Write_place i tags ii blob offsets =
    Some ((place i tags blob).1,
          take ii offsets ++ (place i tags blob).2
            ++ drop (ii + length tags) offsets).
Proof.
  revert ii blob offsets.
  induction tags as [|tag tags IH]; intros ii blob offsets Hlen.
  - cbn [Write_place place fst snd length app].
    by rewrite Nat.add_0_r, take_drop.
  - cbn [length] in Hlen. cbn [Write_place place fst snd].
    rewrite pad_Buffer by apply len_nonneg. cbn [mbind option_bind].
    rewrite option_guard_True by lia. cbn [mbind option_bind].
    unfold writer_Write at 1, Buffer_Writer. cbn [fst].
    rewrite IH by (rewrite length_insert; lia).
    do 2 f_equal.
    rewrite (take_S_r _ _ (len (blob ++ padding (rpmtype (entries_at i tag)) (len blob))))
      by (apply list_lookup_insert_eq; lia).
    rewrite take_insert_ge by lia.
    rewrite drop_insert_lt by lia.
    cbn [length]. rewrite <- app_assoc. cbn [app].
    do 4 f_equal. lia.
Qed.

(** The first loop of [Write] as [Write] runs it. *)
Lemma Write_place_all i tags :
  Write_place i tags 0 [] (replicate (length tags) 0) = Some (place i tags []).
Proof.
  rewrite Write_place_place by (rewrite length_replicate; lia).
  rewrite take_0, drop_ge by (rewrite length_replicate; lia).
  rewrite app_nil_r. by destruct (place i tags []).
Qed.

Lemma padding_Int32 (o : Z) :
  0 ≤ o → o mod 4 ≠ 0 →
  padding typeInt32 o = replicate (Z.to_nat (4 - o mod 4)) x00 ∧
  len (padding typeInt32 o) = 4 - o mod 4 ∧
  (o + (4 - o mod 4)) mod 4 = 0.
Proof.
  intros Ho Hm. unfold padding. rewrite decide_True by done.
  assert (0 ≤ o mod 4 < 4) by (apply Z.mod_pos_bound; lia).
  split; [done|]. split.
  - unfold len. rewrite length_replicate. lia.
  - replace (o + (4 - o mod 4)) with (o - o mod 4 + 1 * 4) by lia.
    rewrite Z.mod_add by lia. rewrite Zminus_mod_idemp_r.
    by rewrite Z.sub_diag.
Qed.

Lemma padding_other (t o : Z) : t ≠ typeInt32 → padding t o = [].
Proof. intros Ht. unfold padding. by rewrite decide_False by tauto. Qed.

(** C5: when the first loop of [Write] reaches an entry with the blob
    built so far [o] bytes long, an Int32 entry with [o] not a multiple
    of 4 gets exactly [4 - o%4] zero bytes before its data and its
    recorded offset is the padded one (a multiple of 4); a Binary or
    StringArray entry gets no padding and its recorded offset is [o]. *)
Theorem Write_place_alignment (i : index) (pre post : list Z) (tag : Z) :
  let tags := pre ++ tag :: post in
  let e := entries_at i tag in
  ∃ (before : Buffer) (offsets0 : list Z) (blob : Buffer) (offsets : list Z),
    Write_place i pre 0 [] (replicate (length tags) 0) = Some (before, offsets0) ∧
    Write_place i tags 0 [] (replicate (length tags) 0) = Some (blob, offsets) ∧
    let o := len before in
    (rpmtype e = typeInt32 → o mod 4 ≠ 0 →
       (before ++ replicate (Z.to_nat (4 - o mod 4)) x00 ++ data e) `prefix_of` blob ∧
       offsets !! length pre = Some (o + (4 - o mod 4)) ∧
       (o + (4 - o mod 4)) mod 4 = 0) ∧
    (rpmtype e = typeBinary ∨ rpmtype e = typeStringArray →
       (before ++ data e) `prefix_of` blob ∧
       offsets !! length pre = Some o).
Proof.
  intros tags e.
  eexists (place i pre []).1, _, (place i tags []).1, (place i tags []).2.
  split.
  { rewrite Write_place_place; [reflexivity|].
    subst tags. rewrite length_replicate, length_app. lia. }
  split.
  { rewrite Write_place_all. by destruct (place i tags []). }
  set (before := (place i pre []).1). intros o.
  assert (Hblob : ∀ p, padding (rpmtype e) o = p →
    (before ++ p ++ data e) `prefix_of` (place i tags []).1 ∧
    (place i tags []).2 !! length pre = Some (o + len p)).
  { intros p Hp. subst tags. rewrite place_app. cbn [place fst snd].
    fold e before o. rewrite Hp. split.
    - rewrite (app_assoc before p). apply place_prefix.
    - rewrite len_app. apply list_lookup_middle. by rewrite place_length. }
  split.
  - intros Ht Hm. rewrite Ht in Hblob.
    destruct (padding_Int32 o) as (Hp & Hl & Hal); [apply len_nonneg|done|].
    destruct (Hblob _ Hp) as [Hpre Hoff].
    split; [done|]. split; [|done].
    rewrite Hoff. do 2 f_equal. unfold len. rewrite length_replicate.
    assert (0 ≤ o mod 4 < 4) by (apply Z.mod_pos_bound; lia). lia.
  - intros Ht.
    destruct (Hblob [] ) as [Hpre Hoff].
    { apply padding_other. unfold typeBinary, typeStringArray, typeInt32 in *. lia. }
    split; [done|]. rewrite Hoff. f_equal. unfold len. cbn. lia.
Qed.

(** ** The sorted tags *)

Section sortedTags.

Variable range_order : list Z → list Z.
Hypothesis range_order_perm : ∀ l, range_order l ≡ₚ l.

Lemma sortedTags_sorted i : StronglySorted Z.le (sortedTags range_order i).
Proof. unfold sortedTags, sort_Ints. apply (StronglySorted_merge_sort _). Qed.

Lemma sortedTags_Permutation i :
  sortedTags range_order i ≡ₚ (map_to_list (entries i)).*1.
Proof.
  unfold sortedTags, sort_Ints. rewrite merge_sort_Permutation.
  rewrite (foldl_snoc_map id), app_nil_l, map_id.
  apply range_order_perm.
Qed.

Lemma sortedTags_NoDup i : NoDup (sortedTags range_order i).
Proof. rewrite sortedTags_Permutation. apply NoDup_fst_map_to_list. Qed.

Lemma sortedTags_elem_of i tag :
  tag ∈ sortedTags range_order i ↔ is_Some (entries i !! tag).
Proof.
  rewrite sortedTags_Permutation, list_elem_of_fmap. split.
  - intros ([k e] & -> & Hin). apply elem_of_map_to_list in Hin. by exists e.
  - intros [e He]. exists (tag, e). split; [done|].
    by apply elem_of_map_to_list.
Qed.

Lemma sortedTags_length i :
  length (sortedTags range_order i) = base.size (entries i).
Proof.
  rewrite sortedTags_Permutation, length_fmap. apply length_map_to_list.
Qed.

Lemma sortedTags_ascending i : StronglySorted Z.lt (sortedTags range_order i).
Proof.
  pose proof (sortedTags_sorted i) as Hs.
  pose proof (sortedTags_NoDup i) as Hn.
  induction Hs as [|tag tags Hs IH Hall]; [constructor|].
  apply NoDup_cons in Hn as [Hnotin Hn].
  constructor; [by apply IH|].
  rewrite Forall_forall in Hall |- *. intros t Ht.
  specialize (Hall t Ht).
  assert (t ≠ tag) by (intros ->; by apply Hnotin).
  lia.
Qed.

End sortedTags.

(** Whatever order [range] yields the keys in, the sorted tags are the
    same. *)
Lemma sortedTags_order (order1 order2 : list Z → list Z) i :
  (∀ l, order1 l ≡ₚ l) → (∀ l, order2 l ≡ₚ l) →
  sortedTags order1 i = sortedTags order2 i.
Proof.
  intros H1 H2. apply (StronglySorted_unique Z.le).
  - by apply sortedTags_sorted.
  - by apply sortedTags_sorted.
  - by rewrite !sortedTags_Permutation.
Qed.

(** ** The records and the whole of [Write] *)

Lemma int32s_bytes_length (data : list Z) :
  length (int32s_bytes data) = (4 * length data)%nat.
Proof.
  unfold int32s_bytes. induction data as [|v data IH]; [done|].
  cbn [flat_map length]. rewrite length_app, IH. cbn [PutUint32 length]. lia.
Qed.

Lemma int32s_bytes_int32 (data : list Z) :
  int32s_bytes (map int32 data) = int32s_bytes data.
Proof.
  unfold int32s_bytes. induction data as [|v data IH]; [done|].
  cbn [map flat_map]. by rewrite IH, uint32_int32.
Qed.

Lemma indexBytes_fields (e : indexEntry) (tag offset : Z) :
  indexBytes e tag offset = int32s_bytes [tag; rpmtype e; offset; count e].
Proof.
  unfold indexBytes, binary_Write, writer_Write, Buffer_Writer. cbn [fst app].
  apply (int32s_bytes_int32 [tag; rpmtype e; offset; count e]).
Qed.

Lemma indexBytes_length (e : indexEntry) (tag offset : Z) :
  length (indexBytes e tag offset) = 16%nat.
Proof. rewrite indexBytes_fields. by rewrite int32s_bytes_length. Qed.

Lemma eigenHeader_fields (i : index) :
  eigenHeader i =
    IndexEntry typeBinary 16
      (int32s_bytes [h i; typeBinary; - (16 * (len_entries i + 1)); 16]).
Proof.
  unfold eigenHeader, BinaryEntry, binary_Write, writer_Write, Buffer_Writer.
  cbn [fst app].
  assert (Hdata :
    int32s_bytes [int32 (h i); int32 typeBinary;
                  int32 (- int32 (0x10 * (len_entries i + 1))); int32 0x10]
    = int32s_bytes [h i; typeBinary; - (16 * (len_entries i + 1)); 16]).
  { unfold int32s_bytes. cbn [flat_map].
    by rewrite uint32_int32_opp, !uint32_int32. }
  rewrite Hdata. reflexivity.
Qed.

Lemma eigenHeader_data_length (i : index) : length (data (eigenHeader i)) = 16%nat.
Proof. rewrite eigenHeader_fields. cbn [data]. by rewrite int32s_bytes_length. Qed.

Lemma Buffer_Write (b : Buffer) (p : list byte) :
  writer_Write b p = (b ++ p, None).
Proof. reflexivity. Qed.

Lemma write_all_app `{Writer W} (w : W) (ps qs : list (list byte)) :
  write_all w (ps ++ qs) = write_all (write_all w ps) qs.
Proof. apply foldl_app. Qed.

Lemma write_all_Buffer (b : Buffer) (ps : list (list byte)) :
  write_all b ps = b ++ concat ps.
Proof.
  revert b. induction ps as [|p ps IH]; intros b.
  - cbn. by rewrite app_nil_r.
  - cbn [write_all foldl concat]. fold (write_all (writer_Write b p).1 ps).
    rewrite IH, Buffer_Write. cbn [fst].
    by rewrite <- app_assoc.
Qed.

Lemma Write_records_spec `{Writer W} (i : index) tags ii offsets (w : W) :
  (ii + length tags ≤ length offsets)%nat →
  Write_records i tags ii offsets w =
    Some (write_all w (zip_with (record_of i) tags (drop ii offsets))).
Proof.
  revert ii w. induction tags as [|tag tags IH]; intros ii w Hlen; [done|].
  cbn [length] in Hlen. cbn [Write_records].
  destruct (lookup_lt_is_Some_2 offsets ii) as [off Hoff]; [lia|].
  rewrite Hoff. cbn [mbind option_bind].
  rewrite (drop_S _ _ _ Hoff). cbn [zip_with write_all foldl].
  rewrite IH by lia. reflexivity.
Qed.

Section Write.

Variable range_order : list Z → list Z.

(** [Write] as a sequence of writes to the sink: the magic, then the
    count and the size, whose error alone is looked at, then the
    records and the blob. *)
Lemma Write_writes `{Writer W} (i : index) (w : W) :
  let tags := sortedTags range_order i in
  let entryData := (place i tags []).1 ++ data (eigenHeader i) in
  let r := writer_Write
             (writer_Write w [x8e; xad; xe8; x01; x00; x00; x00; x00]).1
             (int32s_bytes [len_entries i + 1; len entryData]) in
  Write range_order i w =
    Some (i,
          match r.2 with
          | Some _ => r.1
          | None =>
              write_all r.1
                (indexBytes (eigenHeader i) (h i) (len (place i tags []).1)
                   :: zip_with (record_of i) tags (place i tags []).2
                   ++ [entryData])
          end,
          r.2).
Proof.
  intros tags entryData r. unfold Write. fold tags.
  rewrite Write_place_all. destruct (place i tags []) as [blob offsets] eqn:Hp.
  cbn [mbind option_bind fst snd] in *.
  rewrite !Buffer_Write. cbn [fst]. fold entryData.
  unfold binary_Write.
  replace (int32s_bytes [int32 (int32 (len_entries i) + 1); int32 (len entryData)])
    with (int32s_bytes [len_entries i + 1; len entryData]).
  2:{ unfold int32s_bytes. cbn [flat_map].
      by rewrite uint32_int32_succ, uint32_int32. }
  fold r. destruct r as [w2 [err|]]; [done|]. cbn [fst snd].
  replace (len entryData - 16) with (len blob).
  2:{ subst entryData. rewrite len_app. unfold len at 3.
      rewrite eigenHeader_data_length. lia. }
  assert (Hlen : length offsets = length tags).
  { pose proof (place_length i tags []) as Hl. by rewrite Hp in Hl. }
  rewrite Write_records_spec by lia. cbn [mbind option_bind].
  rewrite drop_0.
  change (?x :: ?l ++ [?y]) with ([x] ++ l ++ [y]).
  by rewrite !write_all_app.
Qed.

Lemma Write_Buffer (i : index) (out : Buffer) :
  let tags := sortedTags range_order i in
  let blob := (place i tags []).1 in
  Write range_order i out =
    Some (i,
          out ++ [x8e; xad; xe8; x01; x00; x00; x00; x00]
            ++ int32s_bytes [len_entries i + 1; len (blob ++ data (eigenHeader i))]
            ++ indexBytes (eigenHeader i) (h i) (len blob)
            ++ concat (zip_with (record_of i) tags (place i tags []).2)
            ++ blob ++ data (eigenHeader i),
          None).
Proof.
  intros tags blob. rewrite Write_writes. fold tags blob.
  rewrite !Buffer_Write. cbn [fst snd].
  rewrite write_all_Buffer. cbn [concat].
  rewrite concat_app. cbn [concat]. rewrite app_nil_r.
  by rewrite <- !app_assoc.
Qed.

End Write.

(** ** The layout [Write] produces *)

Lemma zip_with_record_of (i : index) (tags offsets : list Z) :
  zip_with (record_of i) tags offsets =
    zip_with (fun tag offset =>
                int32s_bytes [tag; rpmtype (entries_at i tag);
                              offset; count (entries_at i tag)])
      tags offsets.
Proof.
  apply zip_with_ext; [|done..].
  intros tag offset. apply indexBytes_fields.
Qed.

Lemma records_length (i : index) (tags offsets : list Z) :
  length offsets = length tags →
  len (concat (zip_with (record_of i) tags offsets)) = 16 * len tags.
Proof.
  revert offsets. induction tags as [|t tags IH]; intros [|o offsets] Hl; try done.
  cbn [zip_with concat]. rewrite len_app. unfold len at 1.
  unfold record_of at 1. rewrite indexBytes_length.
  rewrite IH by (cbn in Hl; lia). unfold len. cbn [length]. lia.
Qed.

(** C6: after the magic, the count and the size come the sentinel's
    record, then one 16-byte record (tag, type, offset, count) for each
    real entry in strictly ascending tag order with the offset recorded
    when the entry was placed, then the blob of the placed entries with
    the sentinel's payload as its last element. *)
Theorem Write_order (range_order : list Z → list Z) (i : index) (out : Buffer) :
  (∀ l, range_order l ≡ₚ l) →
  ∃ (tags offsets : list Z) (blob : list byte),
    StronglySorted Z.lt tags ∧
    (∀ tag, tag ∈ tags ↔ is_Some (entries i !! tag)) ∧
    Write_place i tags 0 [] (replicate (length tags) 0) = Some (blob, offsets) ∧
    length offsets = length tags ∧
    Write range_order i out =
      Some (i,
            out ++ [x8e; xad; xe8; x01; x00; x00; x00; x00]
              ++ int32s_bytes [len_entries i + 1; len (blob ++ data (eigenHeader i))]
              ++ indexBytes (eigenHeader i) (h i) (len blob)
              ++ concat (zip_with
                           (fun tag offset =>
                              int32s_bytes [tag; rpmtype (entries_at i tag);
                                            offset; count (entries_at i tag)])
                           tags offsets)
              ++ blob ++ data (eigenHeader i),
            None).
Proof.
  intros Hperm.
  exists (sortedTags range_order i), (place i (sortedTags range_order i) []).2,
    (place i (sortedTags range_order i) []).1.
  split_and!.
  - by apply sortedTags_ascending.
  - intros tag. by apply sortedTags_elem_of.
  - rewrite Write_place_all. by destruct (place i _ []).
  - apply place_length.
  - rewrite Write_Buffer, zip_with_record_of. reflexivity.
Qed.

(** The blob [place] arrives at, entry by entry: the blob so far, the
    padding of the entry, the data of the entry. *)
Lemma place_blob_foldl (i : index) (tags : list Z) (blob : list byte) :
  (place i tags blob).1 =
    foldl (fun b tag =>
             let e := entries_at i tag in
             b ++ (if decide (rpmtype e = typeInt32 ∧ len b mod 4 ≠ 0)
                   then replicate (Z.to_nat (4 - len b mod 4)) x00
                   else [])
               ++ data e)
      blob tags.
Proof.
  revert blob. induction tags as [|tag tags IH]; intros blob; [done|].
  cbn [place fst foldl]. rewrite IH. unfold padding.
  by rewrite <- app_assoc.
Qed.

(** C4: right after the 8-byte preamble (the magic 8e ad e8 01 and four
    zero bytes) come two big-endian 32-bit integers: the number of real
    entries plus one, and the length of the whole blob.  The blob is, for
    the tags of the index in ascending order, the padding of each entry
    (for an Int32 entry off a multiple of 4, the zero bytes up to it)
    followed by the entry's data, and after the last entry the 16 bytes
    of the sentinel's payload; it is what the output ends with, after
    the 16 * (n + 1) bytes of the records.  Both are 32-bit fields: they
    read back as the values modulo 2^32. *)
Theorem Write_count_and_size (range_order : list Z → list Z) (i : index) (out : Buffer) :
  (∀ l, range_order l ≡ₚ l) →
  let tags := sortedTags range_order i in
  ∃ (blob : list byte) (offsets : list Z) (count_field size_field rest : list byte),
    StronglySorted Z.lt tags ∧
    (∀ tag, tag ∈ tags ↔ is_Some (entries i !! tag)) ∧
    len tags = len_entries i ∧
    blob =
      foldl (fun b tag =>
               let e := entries_at i tag in
               b ++ (if decide (rpmtype e = typeInt32 ∧ len b mod 4 ≠ 0)
                     then replicate (Z.to_nat (4 - len b mod 4)) x00
                     else [])
                 ++ data e)
        [] tags ∧
    Write_place i tags 0 [] (replicate (length tags) 0) = Some (blob, offsets) ∧
    Write range_order i out =
      Some (i,
            out ++ [x8e; xad; xe8; x01] ++ [x00; x00; x00; x00]
              ++ count_field ++ size_field
              ++ rest ++ blob ++ data (eigenHeader i),
            None) ∧
    len rest = 16 * (len_entries i + 1) ∧
    count_field = PutUint32 (uint32 (len_entries i + 1)) ∧
    size_field = PutUint32 (uint32 (len (blob ++ data (eigenHeader i)))) ∧
    Uint32 count_field = (len_entries i + 1) mod 2 ^ 32 ∧
    Uint32 size_field = len (blob ++ data (eigenHeader i)) mod 2 ^ 32 ∧
    length (data (eigenHeader i)) = 16%nat.
Proof.
  intros Hperm tags.
  exists (place i tags []).1, (place i tags []).2,
    (PutUint32 (uint32 (len_entries i + 1))),
    (PutUint32 (uint32 (len ((place i tags []).1 ++ data (eigenHeader i))))),
    (indexBytes (eigenHeader i) (h i) (len (place i tags []).1)
       ++ concat (zip_with (record_of i) tags (place i tags []).2)).
  assert (Htags : len tags = len_entries i).
  { unfold len, len_entries, tags. by rewrite sortedTags_length. }
  split_and!.
  - by apply sortedTags_ascending.
  - intros tag. by apply sortedTags_elem_of.
  - exact Htags.
  - apply place_blob_foldl.
  - rewrite Write_place_all. by destruct (place i tags []).
  - rewrite Write_Buffer. fold tags. unfold int32s_bytes. cbn [flat_map].
    by rewrite app_nil_r, <- !app_assoc.
  - rewrite len_app, records_length by apply place_length.
    unfold len at 1. rewrite indexBytes_length. lia.
  - reflexivity.
  - reflexivity.
  - apply Uint32_PutUint32.
  - apply Uint32_PutUint32.
  - apply eigenHeader_data_length.
Qed.

(** C2, as the source has it: the sentinel's record has the region tag,
    type Binary, count 16 and as offset the place of the sentinel's
    payload in the blob (the blob's length less 16); the payload, the last
    16 bytes of the blob, holds the same tag, type and count but the
    offset -(16 * (n + 1)), each field a big-endian 32-bit integer. *)
Theorem Write_sentinel (range_order : list Z → list Z) (i : index) (out : Buffer) :
  (∀ l, range_order l ≡ₚ l) →
  let n := len_entries i in
  ∃ (blob : list byte) (offsets : list Z) (records : list byte),
    Write_place i (sortedTags range_order i) 0 []
      (replicate (length (sortedTags range_order i)) 0) = Some (blob, offsets) ∧
    len records = 16 * n ∧
    Write range_order i out =
      Some (i,
            out ++ [x8e; xad; xe8; x01; x00; x00; x00; x00]
              ++ int32s_bytes [n + 1; len blob + 16]
              ++ int32s_bytes [h i; typeBinary; len blob; 16]
              ++ records
              ++ blob
              ++ int32s_bytes [h i; typeBinary; - (16 * (n + 1)); 16],
            None).
Proof.
  intros Hperm n. set (tags := sortedTags range_order i).
  exists (place i tags []).1, (place i tags []).2,
    (concat (zip_with (record_of i) tags (place i tags []).2)).
  split_and!.
  - rewrite Write_place_all. by destruct (place i tags []).
  - rewrite records_length by apply place_length.
    unfold n, len_entries, len, tags. by rewrite sortedTags_length.
  - rewrite Write_Buffer. fold tags.
    rewrite indexBytes_fields, len_app.
    replace (len (data (eigenHeader i))) with 16
      by (unfold len; by rewrite eigenHeader_data_length).
    rewrite eigenHeader_fields. cbn [rpmtype count data]. fold n.
    reflexivity.
Qed.

(** C2 as the specification words it fails for the empty index with the
    region tag 0x3f: the sentinel's record, bytes 16-31 of the output,
    has offset 0 and not -16; only the payload, the last 16 bytes, has
    -16. *)
Lemma Write_sentinel_record_offset :
  ∃ out : Buffer,
    Write id (NewIndex immutable) ([] : Buffer) = Some (NewIndex immutable, out, None) ∧
    take 16 (drop 16 out) = int32s_bytes [immutable; typeBinary; 0; 16] ∧
    take 16 (drop 16 out) ≠
      int32s_bytes [immutable; typeBinary;
                    - (16 * (len_entries (NewIndex immutable) + 1)); 16] ∧
    drop (length out - 16) out ≠ take 16 (drop 16 out).
Proof.
  eexists. split; [vm_compute; reflexivity|].
  split_and!; vm_compute; congruence.
Qed.

(** ** Determinism and frame *)

Lemma place_same_entries (i1 i2 : index) (tags : list Z) (blob : list byte) :
  entries i1 = entries i2 → place i1 tags blob = place i2 tags blob.
Proof.
  intros He. revert blob. induction tags as [|tag tags IH]; intros blob; [done|].
  cbn [place]. unfold entries_at. rewrite He. by rewrite IH.
Qed.

Lemma record_of_same_entries (i1 i2 : index) (tags offsets : list Z) :
  entries i1 = entries i2 →
  zip_with (record_of i1) tags offsets = zip_with (record_of i2) tags offsets.
Proof.
  intros He. apply zip_with_ext; [|done..].
  intros tag offset. unfold record_of, entries_at. by rewrite He.
Qed.

(** C7, as the source has it: the bytes handed to the sink, and the
    error returned, are the same for two runs of [Write] and for any two
    indexes with the same tag-to-entry mapping and the same region tag,
    whatever the order in which [range] yields the keys. *)
Theorem Write_deterministic (order1 order2 : list Z → list Z)
    `{Writer W} (i1 i2 : index) (w : W) :
  (∀ l, order1 l ≡ₚ l) → (∀ l, order2 l ≡ₚ l) →
  entries i1 = entries i2 → h i1 = h i2 →
  ∃ (w' : W) (err : option error),
    Write order1 i1 w = Some (i1, w', err) ∧
    Write order2 i2 w = Some (i2, w', err).
Proof.
  intros H1 H2 He Hh. rewrite !Write_writes.
  assert (Htags : sortedTags order2 i2 = sortedTags order1 i1).
  { rewrite (sortedTags_order order2 order1) by done.
    unfold sortedTags. by rewrite He. }
  assert (Heigen : eigenHeader i2 = eigenHeader i1).
  { unfold eigenHeader, len_entries. by rewrite He, Hh. }
  assert (Hlen : len_entries i2 = len_entries i1).
  { unfold len_entries. by rewrite He. }
  rewrite Htags, Heigen, Hlen, Hh.
  rewrite (place_same_entries i2 i1) by done.
  rewrite (record_of_same_entries i2 i1) by done.
  eauto.
Qed.

(** C7 as the specification words it, for any two indexes with the same
    mapping, fails: the signature index and the main header index, both
    without entries, have the same mapping and differ in their output,
    which carries the region tag. *)
Lemma Write_depends_on_region_tag :
  entries (NewIndex signatures) = entries (NewIndex immutable) ∧
  ∃ out1 out2 : Buffer,
    Write id (NewIndex signatures) ([] : Buffer) = Some (NewIndex signatures, out1, None) ∧
    Write id (NewIndex immutable) ([] : Buffer) = Some (NewIndex immutable, out2, None) ∧
    out1 ≠ out2.
Proof.
  split; [reflexivity|]. eexists _, _.
  split; [vm_compute; reflexivity|]. split; [vm_compute; reflexivity|].
  vm_compute. congruence.
Qed.

(** C9: [Add] puts the entry at the tag, in place of any entry that was
    there, and leaves every other tag's entry and the region tag as they
    were; [Write] returns, for every sink, and leaves the index as it
    was, so that a second call hands the sink the same bytes again. *)
Theorem Add_Write_frame (order1 order2 : list Z → list Z)
    (i : index) (tag : Z) (e : indexEntry) :
  (∀ l, order1 l ≡ₚ l) → (∀ l, order2 l ≡ₚ l) →
  (entries (Add i tag e) !! tag = Some e ∧
   (∀ tag', tag' ≠ tag → entries (Add i tag e) !! tag' = entries i !! tag') ∧
   h (Add i tag e) = h i) ∧
  (∀ `{Writer W} (w : W), ∃ (w' : W) (err : option error),
     Write order1 i w = Some (i, w', err)) ∧
  (∀ out : Buffer, ∃ bytes : list byte,
     Write order1 i out = Some (i, out ++ bytes, None) ∧
     Write order2 i (out ++ bytes) = Some (i, (out ++ bytes) ++ bytes, None)).
Proof.
  intros H1 H2. split_and!.
  - apply lookup_insert_eq.
  - intros tag' Hne. by apply lookup_insert_ne.
  - reflexivity.
  - intros W HW w. rewrite Write_writes. eauto.
  - intros out. rewrite Write_Buffer. eexists. split; [reflexivity|].
    rewrite Write_Buffer. by rewrite (sortedTags_order order2 order1).
Qed.

(** ** Errors *)

Lemma recorder_Write `{Writer W} (r : recorder W) (p : list byte) :
  writer_Write r p =
    (Recorder (writer_Write (inner r) p).1
       (results r ++ [(writer_Write (inner r) p).2]),
     (writer_Write (inner r) p).2).
Proof.
  unfold writer_Write at 1, recorder_Writer.
  by destruct (writer_Write (inner r) p).
Qed.

(** What [Write] does return is an error of the sink: when it returns an
    error, that error is the result of the second write, the one of the
    count and the size, and nothing was written after it. *)
Lemma Write_error_is_sink_error `{Writer W} (range_order : list Z → list Z)
    (i : index) (w : recorder W) :
  ∃ (w' : recorder W) (err : option error),
    Write range_order i w = Some (i, w', err) ∧
    ∀ e, err = Some e → ∃ r, results w' = results w ++ [r; Some e].
Proof.
  rewrite Write_writes. eexists _, _. split; [reflexivity|].
  intros e. rewrite !recorder_Write. cbn [fst snd inner results].
  destruct (writer_Write (inner w) _) as [w1 r1]. cbn [fst snd].
  destruct (writer_Write w1 _) as [w2 [e2|]]; cbn [fst snd results]; [|done].
  intros [= ->]. exists r1. by rewrite <- app_assoc.
Qed.

(** C3 fails on the code: a sink with room for 16 bytes takes the magic,
    the count and the size and fails the two writes that follow, and
    [Write] goes on after the first of them and returns nil. *)
Theorem Write_drops_write_errors :
  ∃ w' : recorder limitedWriter,
    Write id (NewIndex immutable) full_disk = Some (NewIndex immutable, w', None) ∧
    results w' =
      [None; None; Some "short write"%string; Some "short write"%string] ∧
    length (written (inner w')) = 16%nat.
Proof. eexists. split; [vm_compute; reflexivity|]. split; reflexivity. Qed.

(** ** The theorems at the sample inputs *)

Lemma id_Permutation (l : list Z) : id l ≡ₚ l.
Proof. reflexivity. Defined.

(** [Write_place_alignment] at [sample_index]: the integer array after
    the two bytes of the string array is moved from offset 2 to offset 4;
    the binary entry after it stays at offset 8. *)
Lemma Write_place_alignment_witness :
  (rpmtype (entries_at sample_index 1001) = typeInt32 ∧
   len [x61; x00] mod 4 ≠ 0 ∧
   rpmtype (entries_at sample_index 1002) = typeBinary) ∧
  ∃ (blob : Buffer) (offsets : list Z),
    Write_place sample_index [1000; 1001; 1002] 0 [] [0; 0; 0] = Some (blob, offsets) ∧
    [x61; x00; x00; x00; x00; x00; x00; x07] `prefix_of` blob ∧
    offsets !! 1%nat = Some 4 ∧
    offsets !! 2%nat = Some 8.
Proof.
  assert (Ht : rpmtype (entries_at sample_index 1001) = typeInt32) by reflexivity.
  assert (Hm : len [x61; x00] mod 4 ≠ 0) by (vm_compute; discriminate).
  assert (Hb : rpmtype (entries_at sample_index 1002) = typeBinary) by reflexivity.
  split; [done|].
  destruct (Write_place_alignment sample_index [1000] [1002] 1001)
    as (before & offsets0 & blob & offsets & Hpre & Hrun & Hint & _).
  destruct (Write_place_alignment sample_index [1000; 1001] [] 1002)
    as (before' & offsets0' & blob' & offsets' & Hpre' & Hrun' & _ & Hbin).
  cbn [app length replicate] in Hpre, Hrun, Hpre', Hrun'.
  rewrite Hrun in Hrun'. injection Hrun' as <- <-.
  vm_compute in Hpre. injection Hpre as <- <-.
  vm_compute in Hpre'. injection Hpre' as <- <-.
  destruct (Hint Ht Hm) as (Hprefix & Hoff & _).
  destruct Hbin as (_ & Hoff'); [by left|].
  exists blob, offsets. split; [done|]. split; [exact Hprefix|].
  split; [exact Hoff|exact Hoff'].
Defined.

(** [Write_count_and_size] at [sample_index] with [range] yielding the
    keys in reverse. *)
Lemma Write_count_and_size_witness :
  (∀ l : list Z, reverse l ≡ₚ l) ∧
  ∃ (blob : list byte) (offsets : list Z) (count_field size_field rest : list byte),
    StronglySorted Z.lt (sortedTags reverse sample_index) ∧
    (∀ tag, tag ∈ sortedTags reverse sample_index
            ↔ is_Some (entries sample_index !! tag)) ∧
    len (sortedTags reverse sample_index) = len_entries sample_index ∧
    blob =
      foldl (fun b tag =>
               let e := entries_at sample_index tag in
               b ++ (if decide (rpmtype e = typeInt32 ∧ len b mod 4 ≠ 0)
                     then replicate (Z.to_nat (4 - len b mod 4)) x00
                     else [])
                 ++ data e)
        [] (sortedTags reverse sample_index) ∧
    Write_place sample_index (sortedTags reverse sample_index) 0 []
      (replicate (length (sortedTags reverse sample_index)) 0) = Some (blob, offsets) ∧
    Write reverse sample_index ([] : Buffer) =
      Some (sample_index,
            [] ++ [x8e; xad; xe8; x01] ++ [x00; x00; x00; x00]
              ++ count_field ++ size_field
              ++ rest ++ blob ++ data (eigenHeader sample_index),
            None) ∧
    len rest = 16 * (len_entries sample_index + 1) ∧
    count_field = PutUint32 (uint32 (len_entries sample_index + 1)) ∧
    size_field = PutUint32 (uint32 (len (blob ++ data (eigenHeader sample_index)))) ∧
    Uint32 count_field = (len_entries sample_index + 1) mod 2 ^ 32 ∧
    Uint32 size_field = len (blob ++ data (eigenHeader sample_index)) mod 2 ^ 32 ∧
    length (data (eigenHeader sample_index)) = 16%nat.
Proof.
  split; [apply reverse_Permutation|].
  exact (Write_count_and_size reverse sample_index [] reverse_Permutation).
Defined.

(** [Write_order] with [range] yielding the keys in reverse. *)
Lemma Write_order_witness :
  (∀ l : list Z, reverse l ≡ₚ l) ∧
  ∃ (tags offsets : list Z) (blob : list byte),
    StronglySorted Z.lt tags ∧
    (∀ tag, tag ∈ tags ↔ is_Some (entries sample_index !! tag)) ∧
    Write_place sample_index tags 0 [] (replicate (length tags) 0) = Some (blob, offsets) ∧
    length offsets = length tags ∧
    Write reverse sample_index ([] : Buffer) =
      Some (sample_index,
            [] ++ [x8e; xad; xe8; x01; x00; x00; x00; x00]
              ++ int32s_bytes [len_entries sample_index + 1;
                               len (blob ++ data (eigenHeader sample_index))]
              ++ indexBytes (eigenHeader sample_index) (h sample_index) (len blob)
              ++ concat (zip_with
                           (fun tag offset =>
                              int32s_bytes [tag; rpmtype (entries_at sample_index tag);
                                            offset; count (entries_at sample_index tag)])
                           tags offsets)
              ++ blob ++ data (eigenHeader sample_index),
            None).
Proof.
  split; [apply reverse_Permutation|].
  apply (Write_order reverse sample_index []), reverse_Permutation.
Defined.

(** [Write_sentinel] at [sample_index]. *)
Lemma Write_sentinel_witness :
  (∀ l : list Z, reverse l ≡ₚ l) ∧
  ∃ (blob : list byte) (offsets : list Z) (records : list byte),
    Write_place sample_index (sortedTags reverse sample_index) 0 []
      (replicate (length (sortedTags reverse sample_index)) 0) = Some (blob, offsets) ∧
    len records = 16 * len_entries sample_index ∧
    Write reverse sample_index ([] : Buffer) =
      Some (sample_index,
            [] ++ [x8e; xad; xe8; x01; x00; x00; x00; x00]
              ++ int32s_bytes [len_entries sample_index + 1; len blob + 16]
              ++ int32s_bytes [h sample_index; typeBinary; len blob; 16]
              ++ records
              ++ blob
              ++ int32s_bytes [h sample_index; typeBinary;
                               - (16 * (len_entries sample_index + 1)); 16],
            None).
Proof.
  split; [apply reverse_Permutation|].
  apply (Write_sentinel reverse sample_index []), reverse_Permutation.
Defined.

(** [Write_deterministic] for two indexes filled in different orders and
    ranged over in different orders. *)
Lemma Write_deterministic_witness :
  ((∀ l : list Z, id l ≡ₚ l) ∧ (∀ l : list Z, reverse l ≡ₚ l) ∧
   entries sample_index = entries sample_index' ∧
   h sample_index = h sample_index') ∧
  ∃ (w' : Buffer) (err : option error),
    Write id sample_index ([] : Buffer) = Some (sample_index, w', err) ∧
    Write reverse sample_index' ([] : Buffer) = Some (sample_index', w', err).
Proof.
  assert (He : entries sample_index = entries sample_index') by (vm_compute; reflexivity).
  assert (Hh : h sample_index = h sample_index') by reflexivity.
  split; [split_and!; [apply id_Permutation|apply reverse_Permutation|done..]|].
  exact (Write_deterministic id reverse sample_index sample_index' []
           id_Permutation reverse_Permutation He Hh).
Defined.

(** [Add_Write_frame] at [sample_index]. *)
Lemma Add_Write_frame_witness :
  ((∀ l : list Z, id l ≡ₚ l) ∧ (∀ l : list Z, reverse l ≡ₚ l) ∧ 1000 ≠ 1001) ∧
  entries (Add sample_index 1001 zeroEntry) !! 1001 = Some zeroEntry ∧
  entries (Add sample_index 1001 zeroEntry) !! 1000 = entries sample_index !! 1000 ∧
  ∃ bytes : list byte,
    Write id sample_index ([] : Buffer) = Some (sample_index, [] ++ bytes, None) ∧
    Write reverse sample_index ([] ++ bytes) =
      Some (sample_index, ([] ++ bytes) ++ bytes, None).
Proof.
  assert (Hne : 1000 ≠ 1001) by lia.
  split; [split_and!; [apply id_Permutation|apply reverse_Permutation|done]|].
  destruct (Add_Write_frame id reverse sample_index 1001 zeroEntry
              id_Permutation reverse_Permutation)
    as ((Hat & Hother & _) & _ & Hagain).
  split; [exact Hat|]. split; [exact (Hother 1000 Hne)|].
  exact (Hagain []).
Defined.


(** * Further properties of [header.go] *)

(** ** Reading the entries back *)

Lemma int32_uint32 (z : Z) : int32 (uint32 z) = int32 z.
Proof. unfold int32, uint32. by rewrite Zplus_mod_idemp_l. Qed.

Lemma int32_small (z : Z) : - 2 ^ 31 ≤ z < 2 ^ 31 → int32 z = z.
Proof. intros Hz. unfold int32. rewrite Z.mod_small; lia. Qed.

Lemma Uint32s_int32s_bytes (vs : list Z) (rest : list byte) :
  (length rest < 4)%nat →
  Uint32s (int32s_bytes vs ++ rest) = map uint32 vs.
Proof.
  intros Hrest. induction vs as [|v vs IH].
  - cbn. by destruct rest as [|? [|? [|? [|? ?]]]]; cbn in *; try lia.
  - change (int32s_bytes (v :: vs)) with (PutUint32 (uint32 v) ++ int32s_bytes vs).
    unfold PutUint32 at 1. cbn [app Uint32s].
    rewrite IH. cbn [map]. f_equal.
    change (Uint32 (PutUint32 (uint32 v)) = uint32 v).
    apply Uint32_PutUint32.
Qed.

(** X1: an [Int32Entry] has type Int32, counts its integers, holds four
    bytes for each, and its data read as big-endian signed 32-bit words
    is the sequence of integers it was made from. *)
Theorem Int32Entry_read_back (value : list Z) :
  Forall (fun v => - 2 ^ 31 ≤ v < 2 ^ 31) value →
  rpmtype (Int32Entry value) = typeInt32 ∧
  count (Int32Entry value) = len value ∧
  len (data (Int32Entry value)) = 4 * len value ∧
  map int32 (Uint32s (data (Int32Entry value))) = value.
Proof.
  intros Hrange. unfold Int32Entry, binary_Write. rewrite Buffer_Write.
  cbn [fst rpmtype count data app]. split_and!; [done..| |].
  - unfold len. rewrite int32s_bytes_length. lia.
  - rewrite <- (app_nil_r (int32s_bytes value)).
    rewrite Uint32s_int32s_bytes by (cbn; lia).
    rewrite map_map. induction Hrange as [|v vs Hv _ IH]; [done|].
    cbn [map]. by rewrite IH, int32_uint32, int32_small.
Qed.

(** X2: an index record is 16 bytes, and read as four big-endian signed
    32-bit words it is the tag, the type, the offset and the count, each
    converted to [int32]. *)
Theorem indexBytes_read_back (e : indexEntry) (tag contentOffset : Z) :
  length (indexBytes e tag contentOffset) = 16%nat ∧
  map int32 (Uint32s (indexBytes e tag contentOffset)) =
    [int32 tag; int32 (rpmtype e); int32 contentOffset; int32 (count e)].
Proof.
  split; [apply indexBytes_length|].
  rewrite indexBytes_fields, <- (app_nil_r (int32s_bytes _)).
  rewrite Uint32s_int32s_bytes by (cbn; lia).
  cbn [map]. by rewrite !int32_uint32.
Qed.

Lemma StringArrayEntry_data (v : string) (value : list string) :
  data (StringArrayEntry (v :: value)) =
    flat_map (fun v => bytes_of_string v ++ [x00]) (v :: value).
Proof.
  unfold StringArrayEntry. cbn [data].
  rewrite foldl_snoc_map, app_nil_l.
  rewrite bytes_Join_terminated by done.
  by rewrite flat_map_concat_map, map_map, <- flat_map_concat_map.
Qed.

Lemma read_strings_terminated (s cur rest : list byte) :
  x00 ∉ s →
  read_strings cur (s ++ x00 :: rest) = (cur ++ s) :: read_strings [] rest.
Proof.
  revert cur. induction s as [|c s IH]; intros cur Hs.
  - cbn. by rewrite app_nil_r.
  - apply not_elem_of_cons in Hs as [Hc Hs].
    cbn [app read_strings].
    destruct (Byte.eqb c x00) eqn:Heq.
    + apply Byte.byte_dec_bl in Heq. congruence.
    + rewrite IH by done. by rewrite <- app_assoc.
Qed.

(** X3: the data of a [StringArrayEntry] of at least one string, none of
    which holds a NUL byte, read as NUL-terminated strings gives back the
    strings, as many as the entry counts, and is as long as the strings
    with one terminator each. *)
Theorem StringArrayEntry_read_back (value : list string) :
  value ≠ [] →
  Forall (fun v => x00 ∉ bytes_of_string v) value →
  read_strings [] (data (StringArrayEntry value)) = map bytes_of_string value ∧
  len (read_strings [] (data (StringArrayEntry value))) = count (StringArrayEntry value) ∧
  len (data (StringArrayEntry value)) =
    foldr (fun v n => len (bytes_of_string v) + 1 + n) 0 value.
Proof.
  intros Hne Hnul. destruct value as [|v0 value]; [done|].
  rewrite StringArrayEntry_data. clear Hne.
  assert (Hread : read_strings [] (flat_map (fun v => bytes_of_string v ++ [x00]) (v0 :: value))
                  = map bytes_of_string (v0 :: value)).
  { induction Hnul as [|v vs Hv _ IH]; [done|].
    cbn [flat_map map]. rewrite <- app_assoc. cbn [app].
    rewrite read_strings_terminated by done. by rewrite IH. }
  split_and!.
  - done.
  - rewrite Hread. unfold len, StringArrayEntry. cbn [count]. by rewrite length_map.
  - clear. induction (v0 :: value) as [|v vs IH]; [done|].
    cbn [flat_map foldr]. rewrite !len_app, IH. unfold len at 2. cbn [length]. lia.
Qed.

(** ** Alignment *)

Lemma padding_zeros (t o : Z) :
  0 ≤ o →
  ∃ z : nat, padding t o = replicate z x00 ∧ (z < 4)%nat ∧
    (t = typeInt32 → (o + Z.of_nat z) mod 4 = 0) ∧ (t ≠ typeInt32 → z = 0%nat).
Proof.
  intros Ho. unfold padding.
  assert (Hm : 0 ≤ o mod 4 < 4) by (apply Z.mod_pos_bound; lia).
  destruct (decide (t = typeInt32 ∧ o mod 4 ≠ 0)) as [[-> Hnz]|Hno].
  - exists (Z.to_nat (4 - o mod 4)). split_and!; [done|lia| |done].
    intros _. destruct (padding_Int32 o Ho Hnz) as (_ & _ & Hal).
    rewrite Z2Nat.id by lia. done.
  - exists 0%nat. split_and!; [done|lia| |done].
    intros ->. rewrite Z.add_0_r.
    destruct (decide (o mod 4 = 0)); [done|tauto].
Qed.

(** X4: [pad] never panics, whatever the writer, the type and the
    offset; for a type other than Int32 it writes nothing; for Int32, at
    the end of a buffer, it appends the fewest zero bytes, none to three,
    that bring the length to a multiple of 4. *)
Theorem pad_minimal `{Writer W} (w : W) (b : Buffer) (t o : Z) :
  is_Some (pad w t o) ∧
  (t ≠ typeInt32 → pad w t o = Some w) ∧
  ∃ z : nat,
    pad b typeInt32 (len b) = Some (b ++ replicate z x00) ∧
    (z < 4)%nat ∧ (len b + Z.of_nat z) mod 4 = 0.
Proof.
  split_and!.
  - unfold pad, boundaries. rewrite lookup_singleton.
    destruct (decide (typeInt32 = t)) as [_|_]; [|done].
    destruct (negb (Z.rem o 4 =? 0)); [|done].
    pose proof (Z.rem_bound_abs o 4) as Hb.
    rewrite make_bytes_nonneg by lia. done.
  - intros Ht. unfold pad, boundaries.
    by rewrite lookup_singleton_ne.
  - rewrite pad_Buffer by apply len_nonneg.
    destruct (padding_zeros typeInt32 (len b)) as (z & -> & Hz & Hal & _);
      [apply len_nonneg|].
    exists z. split_and!; [done..|by apply Hal].
Qed.

(** Where [place] puts the entry at position [k]: after the blob of the
    entries before it and its own padding; what follows its data starts
    with the padding of the next entry, if there is one. *)
Lemma place_at i tags blob0 k tag :
  tags !! k = Some tag →
  let e := entries_at i tag in
  let before := (place i (take k tags) blob0).1 in
  let start := before ++ padding (rpmtype e) (len before) in
  ∃ rest : list byte,
    (place i tags blob0).1 = start ++ data e ++ rest ∧
    (place i tags blob0).2 !! k = Some (len start) ∧
    match (place i tags blob0).2 !! S k with
    | Some o' =>
        ∃ (z : nat) (rest' : list byte),
          (z < 4)%nat ∧ o' = len start + len (data e) + Z.of_nat z ∧
          rest = replicate z x00 ++ rest'
    | None => rest = []
    end.
Proof.
  intros Hk.
  assert (Hlen : length (take k tags) = k).
  { apply lookup_lt_Some in Hk. rewrite length_take. lia. }
  pose proof (take_drop_middle tags k tag Hk) as Htags.
  set (pre := take k tags) in *. set (post := drop (S k) tags) in *.
  clearbody pre post. clear Hk. subst tags.
  intros e before start.
  rewrite place_app. cbn [place fst snd]. fold e before start.
  assert (Hoff : ∀ (j : nat) l,
    ((place i pre blob0).2 ++ l) !! (k + j)%nat = l !! j).
  { intros j l. rewrite lookup_app_r by (rewrite place_length; lia).
    f_equal. rewrite place_length. lia. }
  destruct post as [|tag' post'].
  - exists []. cbn [place fst snd]. split_and!.
    + by rewrite app_nil_r.
    + by rewrite <- (Nat.add_0_r k), Hoff.
    + by rewrite <- (Nat.add_1_r k), Hoff.
  - cbn [place fst snd].
    set (e' := entries_at i tag').
    destruct (padding_zeros (rpmtype e') (len (start ++ data e)))
      as (z & Hz & Hz4 & _); [apply len_nonneg|].
    destruct (place_prefix i post'
                (((start ++ data e) ++ padding (rpmtype e') (len (start ++ data e)))
                   ++ data e')) as [rest' Hrest].
    exists (replicate z x00 ++ data e' ++ rest'). split_and!.
    + rewrite Hrest, Hz. by rewrite <- !app_assoc.
    + by rewrite <- (Nat.add_0_r k), Hoff.
    + rewrite <- (Nat.add_1_r k), Hoff. cbn [lookup list_lookup].
      exists z, (data e' ++ rest'). split_and!; [done| |done].
      rewrite Hz, !len_app. unfold len at 3. rewrite length_replicate. lia.
Qed.

(** X5: in the blob the first loop of [Write] builds, every entry of type
    Int32 is recorded at an offset that is a multiple of 4. *)
Theorem Write_place_Int32_aligned (i : index) (tags : list Z) :
  ∃ (blob : Buffer) (offsets : list Z),
    Write_place i tags 0 [] (replicate (length tags) 0) = Some (blob, offsets) ∧
    length offsets = length tags ∧
    ∀ (k : nat) (tag o : Z),
      tags !! k = Some tag → offsets !! k = Some o →
      rpmtype (entries_at i tag) = typeInt32 →
      o mod 4 = 0.
Proof.
  exists (place i tags []).1, (place i tags []).2. split_and!.
  - rewrite Write_place_all. by destruct (place i tags []).
  - apply place_length.
  - intros k tag o Hk Ho Ht.
    destruct (place_at i tags [] k tag Hk) as (rest & _ & Hoff & _).
    rewrite Hoff in Ho. injection Ho as <-.
    rewrite Ht.
    destruct (padding_zeros typeInt32 (len (place i (take k tags) []).1))
      as (z & -> & _ & Hal & _); [apply len_nonneg|].
    rewrite len_app. unfold len at 2. rewrite length_replicate. by apply Hal.
Qed.

(** X6: the offset recorded for an entry is where its data is: the bytes
    of the blob from that offset on, as many as the entry has, are the
    entry's data. *)
Theorem Write_place_data_at_offset (i : index) (tags : list Z) :
  ∃ (blob : Buffer) (offsets : list Z),
    Write_place i tags 0 [] (replicate (length tags) 0) = Some (blob, offsets) ∧
    length offsets = length tags ∧
    ∀ (k : nat) (tag o : Z),
      tags !! k = Some tag → offsets !! k = Some o →
      0 ≤ o ∧ o + len (data (entries_at i tag)) ≤ len blob ∧
      slice blob (Z.to_nat o) (length (data (entries_at i tag)))
        = data (entries_at i tag).
Proof.
  exists (place i tags []).1, (place i tags []).2. split_and!.
  - rewrite Write_place_all. by destruct (place i tags []).
  - apply place_length.
  - intros k tag o Hk Ho.
    destruct (place_at i tags [] k tag Hk) as (rest & Hblob & Hoff & _).
    rewrite Hoff in Ho. injection Ho as <-.
    rewrite Hblob. split_and!.
    + apply len_nonneg.
    + rewrite !len_app. pose proof (len_nonneg rest). lia.
    + unfold slice, len. rewrite Nat2Z.id.
      rewrite drop_app_length, take_app_length. done.
Qed.

(** X7: the entries are packed in the order of the tags: the first one
    starts at offset 0, each next one starts at most three bytes after
    the end of the one before it, those bytes being zero, and the last
    one ends the blob. *)
Theorem Write_place_packed (i : index) (tags : list Z) :
  ∃ (blob : Buffer) (offsets : list Z),
    Write_place i tags 0 [] (replicate (length tags) 0) = Some (blob, offsets) ∧
    (∀ o, offsets !! 0%nat = Some o → o = 0) ∧
    ∀ (k : nat) (tag o : Z),
      tags !! k = Some tag → offsets !! k = Some o →
      let fin := o + len (data (entries_at i tag)) in
      match offsets !! S k with
      | Some o' =>
          fin ≤ o' < fin + 4 ∧
          slice blob (Z.to_nat fin) (Z.to_nat (o' - fin))
            = replicate (Z.to_nat (o' - fin)) x00
      | None => fin = len blob
      end.
Proof.
  exists (place i tags []).1, (place i tags []).2. split_and!.
  - rewrite Write_place_all. by destruct (place i tags []).
  - intros o Ho. destruct tags as [|tag tags]; [done|].
    cbn [place snd lookup list_lookup] in Ho. injection Ho as <-.
    unfold padding. rewrite decide_False; [done|].
    intros [_ Hnz]. by apply Hnz.
  - intros k tag o Hk Ho fin.
    destruct (place_at i tags [] k tag Hk) as (rest & Hblob & Hoff & Hnext).
    rewrite Hoff in Ho. injection Ho as <-.
    destruct ((place i tags []).2 !! S k) as [o'|].
    + destruct Hnext as (z & rest' & Hz & -> & ->). subst fin.
      split; [lia|]. rewrite Hblob.
      set (start := _ ++ padding _ _).
      replace (len start + len (data (entries_at i tag)) + Z.of_nat z
               - (len start + len (data (entries_at i tag)))) with (Z.of_nat z) by lia.
      rewrite <- len_app. unfold slice, len. rewrite !Nat2Z.id.
      rewrite (app_assoc start), drop_app_length.
      apply take_app_length'. by rewrite length_replicate.
    + subst fin. rewrite Hblob, Hnext, app_nil_r, !len_app. lia.
Qed.

(** ** Reading the output of [Write] *)

Lemma concat_lookup_chunk (n : nat) (chunks : list (list byte)) (rest : list byte)
    (k : nat) (c : list byte) :
  Forall (fun c => length c = n) chunks →
  chunks !! k = Some c →
  take n (drop (n * k) (concat chunks ++ rest)) = c.
Proof.
  intros Hall. revert k. induction Hall as [|c0 cs Hc0 _ IH]; intros k Hk; [done|].
  cbn [concat]. rewrite <- app_assoc. destruct k as [|k].
  - injection Hk as ->. rewrite Nat.mul_0_r, drop_0.
    by apply take_app_length'.
  - replace (n * S k)%nat with (n + n * k)%nat by lia.
    rewrite drop_app_add' by done. by apply IH.
Qed.

Lemma records_all_16 (i : index) (tags offsets : list Z) :
  Forall (fun c => length c = 16%nat) (zip_with (record_of i) tags offsets).
Proof.
  revert offsets. induction tags as [|t tags IH]; intros [|o offsets]; cbn; try done.
  constructor; [apply indexBytes_length|apply IH].
Qed.

Lemma records_length_nat (i : index) (tags offsets : list Z) :
  length offsets = length tags →
  length (concat (zip_with (record_of i) tags offsets)) = (16 * length tags)%nat.
Proof.
  intros Hl. pose proof (records_length i tags offsets Hl) as H. unfold len in H. lia.
Qed.

Section Read.

Variable range_order : list Z → list Z.

(** The output of [Write] to a buffer in three parts: 32 bytes of magic,
    count, size and sentinel record; the records; the blob. *)
Lemma Write_Buffer_parts (i : index) (out0 : Buffer) :
  let tags := sortedTags range_order i in
  let blob := (place i tags []).1 in
  ∃ head : list byte,
    length head = 32%nat ∧
    take 16 head =
      [x8e; xad; xe8; x01; x00; x00; x00; x00]
        ++ PutUint32 (uint32 (len_entries i + 1))
        ++ PutUint32 (uint32 (len blob + 16)) ∧
    Write range_order i out0 =
      Some (i,
            out0 ++ head
              ++ concat (zip_with (record_of i) tags (place i tags []).2)
              ++ blob ++ data (eigenHeader i),
            None).
Proof.
  intros tags blob.
  exists ([x8e; xad; xe8; x01; x00; x00; x00; x00]
            ++ int32s_bytes [len_entries i + 1; len (blob ++ data (eigenHeader i))]
            ++ indexBytes (eigenHeader i) (h i) (len blob)).
  split_and!.
  - rewrite !length_app, int32s_bytes_length, indexBytes_length. reflexivity.
  - rewrite len_app.
    replace (len (data (eigenHeader i))) with 16
      by (unfold len; by rewrite eigenHeader_data_length).
    unfold int32s_bytes. cbn [flat_map PutUint32 app take]. reflexivity.
  - rewrite Write_Buffer. fold tags blob. by rewrite <- !app_assoc.
Qed.

Hypothesis range_order_perm : ∀ l, range_order l ≡ₚ l.

(** X8: every entry of the index can be read back from what [Write]
    appends to a buffer.  For each position [k] of the tags in strictly
    ascending order, which are as many as the entries and hold every
    key, the 16 bytes at [32 + 16 * k] are
    the record (tag, type, offset, count) of the entry at that tag, and
    the entry's data are the bytes at that offset after the records, that
    is from [32 + 16 * n + offset] on. *)
Theorem Write_read_back (i : index) (out0 : Buffer) :
  ∃ (out : list byte) (tags : list Z),
    Write range_order i out0 = Some (i, out0 ++ out, None) ∧
    StronglySorted Z.lt tags ∧
    length tags = base.size (entries i) ∧
    (∀ tag, is_Some (entries i !! tag) → ∃ k : nat, tags !! k = Some tag) ∧
    ∀ (k : nat) (tag : Z),
      tags !! k = Some tag →
      ∃ (e : indexEntry) (o : Z),
        entries i !! tag = Some e ∧
        slice out (32 + 16 * k) 16 = int32s_bytes [tag; rpmtype e; o; count e] ∧
        0 ≤ o ∧
        slice out (32 + 16 * length tags + Z.to_nat o) (length (data e)) = data e.
Proof.
  destruct (Write_Buffer_parts i out0) as (head & Hhead & _ & Hw).
  set (tags := sortedTags range_order i) in *.
  set (offsets := (place i tags []).2) in *.
  eexists _, tags. split_and!.
  - exact Hw.
  - by apply sortedTags_ascending.
  - by apply sortedTags_length.
  - intros tag Htag. apply list_elem_of_lookup_1.
    by apply sortedTags_elem_of.
  - intros k tag Hk.
    assert (Hin : is_Some (entries i !! tag)).
    { apply (sortedTags_elem_of range_order); [done|].
      by apply list_elem_of_lookup_2 with k. }
    destruct Hin as [e He].
    assert (Hat : entries_at i tag = e) by (unfold entries_at; by rewrite He).
    destruct (place_at i tags [] k tag Hk) as (rest & Hblob & Hoff & _).
    rewrite Hat in Hblob, Hoff.
    set (start := _ ++ padding _ _) in *.
    exists e, (len start). split_and!.
    + done.
    + unfold slice. rewrite drop_app_add' by done.
      rewrite (concat_lookup_chunk 16 _ _ k (record_of i tag (len start))).
      * unfold record_of. by rewrite Hat, indexBytes_fields.
      * apply records_all_16.
      * rewrite lookup_zip_with, Hk. cbn [mbind option_bind]. subst offsets. by rewrite Hoff.
    + apply len_nonneg.
    + unfold slice, len. rewrite Nat2Z.id.
      set (recs := concat _).
      assert (Hout : head ++ recs ++ (place i tags []).1 ++ data (eigenHeader i)
                     = (head ++ recs ++ start) ++ data e ++ rest ++ data (eigenHeader i)).
      { rewrite Hblob. by rewrite <- !app_assoc. }
      rewrite Hout, drop_app_length'.
      * by rewrite take_app_length.
      * rewrite !length_app, Hhead. unfold recs.
        rewrite records_length_nat; [lia|]. apply place_length.
Qed.

(** X9: what [Write] appends to a buffer is at least 48 bytes and, short
    of 2^32 bytes, as long as its own header says: 16 bytes, then 16
    bytes for each of the records the count field (bytes 8-11) announces,
    then the bytes the size field (bytes 12-15) announces. *)
Theorem Write_length_announced (i : index) (out0 : Buffer) :
  ∃ out : list byte,
    Write range_order i out0 = Some (i, out0 ++ out, None) ∧
    48 ≤ len out ∧
    (len out < 2 ^ 32 →
     len out = 16 + 16 * Uint32 (slice out 8 4) + Uint32 (slice out 12 4)).
Proof.
  destruct (Write_Buffer_parts i out0) as (head & Hhead & Htake & Hw).
  set (tags := sortedTags range_order i) in *.
  set (blob := (place i tags []).1) in *.
  set (recs := concat _) in *.
  eexists. split; [exact Hw|].
  assert (Hrecs : len recs = 16 * len_entries i).
  { unfold recs. rewrite records_length by apply place_length.
    unfold len, len_entries, tags. by rewrite sortedTags_length. }
  assert (Hlen : len (head ++ recs ++ blob ++ data (eigenHeader i))
                 = 32 + 16 * len_entries i + (len blob + 16)).
  { rewrite !len_app, Hrecs. unfold len at 1 3.
    rewrite Hhead, eigenHeader_data_length. lia. }
  pose proof (len_nonneg blob) as Hb.
  assert (Hn : 0 ≤ len_entries i) by (unfold len_entries; lia).
  split; [lia|]. intros Hsmall.
  assert (Hslice : ∀ from n, (from + n ≤ 16)%nat →
    slice (head ++ recs ++ blob ++ data (eigenHeader i)) from n
    = slice (take 16 head) from n).
  { intros from n Hfn. unfold slice.
    rewrite <- (take_drop 16 head) at 1. rewrite <- app_assoc.
    rewrite drop_app_le by (rewrite length_take; lia).
    rewrite take_app_le; [done|].
    rewrite length_drop, length_take. lia. }
  rewrite !Hslice by lia. rewrite Htake.
  unfold slice. cbn [app drop]. rewrite drop_0.
  change (take 4 (PutUint32 ?a ++ PutUint32 ?b)) with (PutUint32 a).
  change (take 4 (drop 4 (PutUint32 ?a ++ PutUint32 ?b))) with (PutUint32 b).
  rewrite !Uint32_PutUint32, !Z.mod_small by lia. lia.
Qed.

(** X10: for an index without entries, whatever its region tag, [Write]
    appends 48 bytes: the magic and four zero bytes, the count 1, the
    size 16, the sentinel record with offset 0 and the sentinel payload
    with offset -16. *)
Theorem Write_NewIndex (region : Z) (out0 : Buffer) :
  Write range_order (NewIndex region) out0 =
    Some (NewIndex region,
          out0 ++ [x8e; xad; xe8; x01; x00; x00; x00; x00]
            ++ int32s_bytes [1; 16]
            ++ int32s_bytes [region; typeBinary; 0; 16]
            ++ int32s_bytes [region; typeBinary; -16; 16],
          None).
Proof.
  rewrite Write_Buffer.
  assert (Htags : sortedTags range_order (NewIndex region) = []).
  { apply Permutation_nil_r. rewrite sortedTags_Permutation by done.
    unfold NewIndex. cbn [entries]. by rewrite map_to_list_empty. }
  rewrite Htags. cbn [place fst snd zip_with concat app].
  rewrite indexBytes_fields, eigenHeader_fields. cbn [rpmtype count data].
  unfold len_entries, NewIndex. cbn [entries h].
  rewrite map_size_empty. reflexivity.
Qed.

End Read.

(** ** The writes [Write] makes *)

Lemma recorder_write_all `{Writer W} (r : recorder W) (ps : list (list byte)) :
  ∃ rs : list (option error),
    results (write_all r ps) = results r ++ rs ∧ length rs = length ps.
Proof.
  revert r. induction ps as [|p ps IH]; intros r.
  - exists []. by rewrite app_nil_r.
  - cbn [write_all foldl]. fold (write_all (writer_Write r p).1 ps).
    destruct (IH (writer_Write r p).1) as (rs & Hrs & Hlen).
    rewrite recorder_Write in Hrs. cbn [fst results] in Hrs.
    rewrite recorder_Write. cbn [fst].
    eexists (_ :: rs). split.
    + rewrite Hrs, <- app_assoc. reflexivity.
    + cbn [length]. by rewrite Hlen.
Qed.

(** X11: [Write] returns exactly what the sink returned for the second
    write, the one of the count and the size.  When that write fails
    [Write] makes no further write; when it succeeds [Write] makes n + 4
    writes in all for n entries, whatever the other writes return. *)
Theorem Write_writes_made `{Writer W} (range_order : list Z → list Z)
    (i : index) (w : recorder W) :
  (∀ l, range_order l ≡ₚ l) →
  ∃ (w' : recorder W) (err : option error) (rs : list (option error)),
    Write range_order i w = Some (i, w', err) ∧
    results w' = results w ++ rs ∧
    rs !! 1%nat = Some err ∧
    length rs = match err with
                | Some _ => 2%nat
                | None => (base.size (entries i) + 4)%nat
                end.
Proof.
  intros Hperm. rewrite Write_writes.
  set (tags := sortedTags range_order i).
  set (entryData := _ ++ data (eigenHeader i)).
  rewrite !recorder_Write. cbn [fst snd inner results].
  destruct (writer_Write (inner w) _) as [w1 r1]. cbn [fst snd].
  destruct (writer_Write w1 _) as [w2 [e2|]]; cbn [fst snd].
  - eexists _, _, [r1; Some e2]. split; [reflexivity|].
    cbn [results]. by rewrite <- app_assoc.
  - set (ps := _ :: _ ++ [entryData]).
    destruct (recorder_write_all (Recorder w2 ((results w ++ [r1]) ++ [None])) ps)
      as (rs & Hrs & Hlen).
    eexists _, None, (r1 :: None :: rs). split; [reflexivity|].
    split_and!.
    + rewrite Hrs. cbn [results]. by rewrite <- !app_assoc.
    + done.
    + cbn [length]. rewrite Hlen. unfold ps. cbn [length].
      rewrite length_app, length_zip_with, place_length. cbn [length].
      unfold tags. rewrite sortedTags_length by done. lia.
Qed.

(** ** Adding entries *)

(** X12: adding twice under one tag leaves what adding the second entry
    alone leaves; adding under two different tags leaves the same index
    in either order; and an [Add] grows [len(i.entries)] by one when the
    tag is new and not at all when it is taken. *)
Theorem Add_compose (i : index) (tag tag' : Z) (e e' : indexEntry) :
  Add (Add i tag e) tag e' = Add i tag e' ∧
  (tag ≠ tag' → Add (Add i tag e) tag' e' = Add (Add i tag' e') tag e) ∧
  len_entries (Add i tag e) =
    match entries i !! tag with
    | Some _ => len_entries i
    | None => len_entries i + 1
    end.
Proof.
  unfold Add, len_entries. cbn [entries size h]. split_and!.
  - by rewrite insert_insert_eq.
  - intros Hne. by rewrite insert_insert_ne.
  - rewrite map_size_insert. destruct (entries i !! tag); cbn; lia.
Qed.

(** ** More of the lead *)

Lemma Lead_bytes (name version release : string) :
  let nvr := bytes_of_string name ++ [x2d] ++ bytes_of_string version
             ++ [x2d] ++ bytes_of_string release in
  let n := take 65 nvr in
  Lead name version release =
    Some ([xed; xab; xee; xdb; x03; x00; x00; x00; x00; x01]
            ++ (n ++ replicate (66 - length n) x00)
            ++ [x00; x01; x00; x05] ++ replicate 16 x00).
Proof.
  intros nvr n. unfold Lead.
  assert (Hn : bytes_of_string (Sprintf_nvr name version release) = nvr).
  { unfold Sprintf_nvr. by rewrite !bytes_of_string_append. }
  rewrite Hn.
  assert (Hcut : (if 65 <? len nvr then take 65 nvr else nvr) = n).
  { unfold len, n. destruct (Z.ltb_spec 65 (Z.of_nat (length nvr))); [done|].
    rewrite take_ge; [done|lia]. }
  rewrite Hcut.
  assert (Hlen : (length n ≤ 65)%nat) by (unfold n; rewrite length_take; lia).
  rewrite (make_bytes_nonneg (66 - len n)) by (unfold len; lia).
  rewrite (make_bytes_nonneg 16) by lia. cbn [mbind option_bind].
  replace (Z.to_nat (66 - len n)) with (66 - length n)%nat by (unfold len; lia).
  by rewrite <- !app_assoc.
Qed.

(** X13: in every lead bytes 4-9 are 03 00 00 00 00 01, bytes 76-79 are
    00 01 00 05, and byte 75, the last of the name field, is NUL, however
    long the name is. *)
Theorem Lead_fixed_fields (name version release : string) :
  ∃ b : list byte,
    Lead name version release = Some b ∧
    slice b 4 6 = [x03; x00; x00; x00; x00; x01] ∧
    b !! 75%nat = Some x00 ∧
    slice b 76 4 = [x00; x01; x00; x05].
Proof.
  rewrite Lead_bytes. cbv zeta.
  set (n := take 65 _).
  assert (Hlen : (length n ≤ 65)%nat) by (unfold n; rewrite length_take; lia).
  set (field := n ++ replicate (66 - length n) x00).
  assert (Hfield : length field = 66%nat).
  { unfold field. rewrite length_app, length_replicate. lia. }
  eexists. split; [reflexivity|]. split_and!.
  - reflexivity.
  - rewrite lookup_app_r by (cbn [length]; lia). cbn [length].
    rewrite lookup_app_l by lia. unfold field.
    rewrite lookup_app_r by lia. apply lookup_replicate_2. lia.
  - unfold slice. cbn [app drop].
    rewrite drop_app_length' by done. reflexivity.
Qed.

(** X14: when the name, the version and the release hold no NUL byte, the
    name field of the lead (bytes 10-75) read as a NUL-terminated string
    is "name-version-release" cut to its first 65 bytes. *)
Theorem Lead_name_read_back (name version release : string) :
  let nvr := bytes_of_string name ++ [x2d] ++ bytes_of_string version
             ++ [x2d] ++ bytes_of_string release in
  x00 ∉ nvr →
  ∃ b : list byte,
    Lead name version release = Some b ∧
    head (read_strings [] (slice b 10 66)) = Some (take 65 nvr).
Proof.
  intros nvr Hnul. rewrite Lead_bytes. fold nvr.
  set (n := take 65 nvr).
  assert (Hlen : (length n ≤ 65)%nat) by (unfold n; rewrite length_take; lia).
  assert (Hn : x00 ∉ n).
  { intros Hin. apply Hnul. unfold n in Hin.
    rewrite <- (take_drop 65 nvr). apply elem_of_app. by left. }
  eexists. split; [reflexivity|].
  unfold slice. cbn [app drop]. rewrite drop_0.
  rewrite take_app_length'
    by (rewrite length_app, length_replicate; lia).
  replace (66 - length n)%nat with (S (65 - length n)) by lia.
  cbn [replicate]. rewrite read_strings_terminated by done. done.
Qed.

(** X15: the lead depends on the name, the version and the release only
    through the first 65 bytes of "name-version-release": two triples
    that agree there have the same lead. *)
Theorem Lead_same_prefix (name version release name' version' release' : string) :
  take 65 (bytes_of_string name ++ [x2d] ++ bytes_of_string version
             ++ [x2d] ++ bytes_of_string release)
  = take 65 (bytes_of_string name' ++ [x2d] ++ bytes_of_string version'
               ++ [x2d] ++ bytes_of_string release') →
  Lead name version release = Lead name' version' release'.
Proof. intros Heq. rewrite !Lead_bytes. cbv zeta. by rewrite Heq. Qed.

(** ** The further theorems at sample inputs *)

Ltac no_NUL :=
  let Hin := fresh "Hin" in
  vm_compute; intros Hin;
  repeat (apply elem_of_cons in Hin as [Hin|Hin]; [discriminate Hin|]);
  by apply elem_of_nil in Hin.

(** [Int32Entry_read_back] for the integers 7 and -1. *)
Lemma Int32Entry_read_back_witness :
  Forall (fun v => - 2 ^ 31 ≤ v < 2 ^ 31) [7; -1] ∧
  data (Int32Entry [7; -1]) = [x00; x00; x00; x07; xff; xff; xff; xff] ∧
  map int32 (Uint32s (data (Int32Entry [7; -1]))) = [7; -1].
Proof.
  assert (Hr : Forall (fun v => - 2 ^ 31 ≤ v < 2 ^ 31) [7; -1])
    by (repeat constructor; lia).
  split; [exact Hr|]. split; [reflexivity|].
  exact (proj2 (proj2 (proj2 (Int32Entry_read_back [7; -1] Hr)))).
Defined.

(** [StringArrayEntry_read_back] for the strings "a" and "bb". *)
Lemma StringArrayEntry_read_back_witness :
  (["a"; "bb"]%string ≠ [] ∧
   Forall (fun v => x00 ∉ bytes_of_string v) ["a"; "bb"]%string) ∧
  read_strings [] (data (StringArrayEntry ["a"; "bb"]%string))
    = [[x61]; [x62; x62]] ∧
  len (data (StringArrayEntry ["a"; "bb"]%string)) = 5.
Proof.
  assert (Hne : ["a"; "bb"]%string ≠ []) by discriminate.
  assert (Hnul : Forall (fun v => x00 ∉ bytes_of_string v) ["a"; "bb"]%string)
    by (repeat constructor; no_NUL).
  split; [done|].
  destruct (StringArrayEntry_read_back ["a"; "bb"]%string Hne Hnul) as (Hread & _ & Hlen).
  split; [exact Hread|exact Hlen].
Defined.

(** [pad_minimal] for a Binary entry and for a buffer of three bytes. *)
Lemma pad_minimal_witness :
  typeBinary ≠ typeInt32 ∧
  pad ([x01; x02; x03] : Buffer) typeBinary 3 = Some [x01; x02; x03] ∧
  ∃ z : nat,
    pad ([x01; x02; x03] : Buffer) typeInt32 3 = Some ([x01; x02; x03] ++ replicate z x00) ∧
    (z < 4)%nat ∧ (3 + Z.of_nat z) mod 4 = 0.
Proof.
  assert (Hne : typeBinary ≠ typeInt32) by discriminate.
  destruct (pad_minimal ([x01; x02; x03] : Buffer) [x01; x02; x03] typeBinary 3)
    as (_ & Hother & Hint).
  split; [exact Hne|]. split; [exact (Hother Hne)|exact Hint].
Defined.

(** [Write_place_Int32_aligned] at [sample_index]: the integer array,
    second of the tags, is at an offset that is a multiple of 4. *)
Lemma Write_place_Int32_aligned_witness :
  ([1000; 1001; 1002] !! 1%nat = Some 1001 ∧
   rpmtype (entries_at sample_index 1001) = typeInt32) ∧
  ∃ (blob : Buffer) (offsets : list Z) (o : Z),
    Write_place sample_index [1000; 1001; 1002] 0 [] [0; 0; 0] = Some (blob, offsets) ∧
    offsets !! 1%nat = Some o ∧ o mod 4 = 0.
Proof.
  split; [by split|].
  destruct (Write_place_Int32_aligned sample_index [1000; 1001; 1002])
    as (blob & offsets & Hrun & Hlen & Hal).
  destruct (lookup_lt_is_Some_2 offsets 1) as [o Ho]; [rewrite Hlen; cbn; lia|].
  exists blob, offsets, o. split; [exact Hrun|]. split; [exact Ho|].
  exact (Hal 1%nat 1001 o eq_refl Ho eq_refl).
Defined.

(** [Write_place_data_at_offset] at [sample_index], for the integer
    array. *)
Lemma Write_place_data_at_offset_witness :
  [1000; 1001; 1002] !! 1%nat = Some 1001 ∧
  ∃ (blob : Buffer) (offsets : list Z) (o : Z),
    Write_place sample_index [1000; 1001; 1002] 0 [] [0; 0; 0] = Some (blob, offsets) ∧
    offsets !! 1%nat = Some o ∧
    slice blob (Z.to_nat o) (length (data (entries_at sample_index 1001)))
      = data (entries_at sample_index 1001).
Proof.
  split; [done|].
  destruct (Write_place_data_at_offset sample_index [1000; 1001; 1002])
    as (blob & offsets & Hrun & Hlen & Hat).
  destruct (lookup_lt_is_Some_2 offsets 1) as [o Ho]; [rewrite Hlen; cbn; lia|].
  exists blob, offsets, o. split; [exact Hrun|]. split; [exact Ho|].
  exact (proj2 (proj2 (Hat 1%nat 1001 o eq_refl Ho))).
Defined.

(** [Write_place_packed] at [sample_index]: two zero bytes between the
    string array, which ends at 2, and the integer array, which starts
    at 4. *)
Lemma Write_place_packed_witness :
  [1000; 1001; 1002] !! 0%nat = Some 1000 ∧
  ∃ (blob : Buffer) (offsets : list Z),
    Write_place sample_index [1000; 1001; 1002] 0 [] [0; 0; 0] = Some (blob, offsets) ∧
    offsets !! 0%nat = Some 0 ∧
    offsets !! 1%nat = Some 4 ∧
    slice blob 2 2 = [x00; x00].
Proof.
  split; [done|].
  destruct (Write_place_packed sample_index [1000; 1001; 1002])
    as (blob & offsets & Hrun & Hfirst & Hpacked).
  exists blob, offsets. split; [exact Hrun|].
  pose proof Hrun as Hrun'. vm_compute in Hrun'. injection Hrun' as <- <-.
  split; [reflexivity|]. split; [reflexivity|].
  exact (proj2 (Hpacked 0%nat 1000 0 eq_refl eq_refl)).
Defined.

(** [Write_read_back] at [sample_index] with [range] yielding the keys in
    reverse. *)
Lemma Write_read_back_witness :
  (∀ l : list Z, reverse l ≡ₚ l) ∧
  ∃ (out : list byte) (tags : list Z),
    Write reverse sample_index ([] : Buffer) = Some (sample_index, [] ++ out, None) ∧
    StronglySorted Z.lt tags ∧
    length tags = base.size (entries sample_index) ∧
    (∀ tag, is_Some (entries sample_index !! tag) → ∃ k : nat, tags !! k = Some tag) ∧
    ∀ (k : nat) (tag : Z),
      tags !! k = Some tag →
      ∃ (e : indexEntry) (o : Z),
        entries sample_index !! tag = Some e ∧
        slice out (32 + 16 * k) 16 = int32s_bytes [tag; rpmtype e; o; count e] ∧
        0 ≤ o ∧
        slice out (32 + 16 * length tags + Z.to_nat o) (length (data e)) = data e.
Proof.
  split; [apply reverse_Permutation|].
  exact (Write_read_back reverse reverse_Permutation sample_index []).
Defined.

(** [Write_length_announced] at [sample_index]: 32 + 3 * 16 + 25 bytes. *)
Lemma Write_length_announced_witness :
  (∀ l : list Z, reverse l ≡ₚ l) ∧
  ∃ out : list byte,
    Write reverse sample_index ([] : Buffer) = Some (sample_index, [] ++ out, None) ∧
    len out < 2 ^ 32 ∧
    len out = 16 + 16 * Uint32 (slice out 8 4) + Uint32 (slice out 12 4).
Proof.
  split; [apply reverse_Permutation|].
  destruct (Write_length_announced reverse reverse_Permutation sample_index [])
    as (out & Hw & _ & Hlen).
  exists out. split; [exact Hw|].
  assert (Hsmall : len out < 2 ^ 32).
  { pose proof Hw as Hw'. vm_compute in Hw'. injection Hw' as <-.
    vm_compute. reflexivity. }
  split; [exact Hsmall|exact (Hlen Hsmall)].
Defined.

(** [Write_NewIndex] for the signature index. *)
Lemma Write_NewIndex_witness :
  (∀ l : list Z, reverse l ≡ₚ l) ∧
  Write reverse (NewIndex signatures) ([] : Buffer) =
    Some (NewIndex signatures,
          [] ++ [x8e; xad; xe8; x01; x00; x00; x00; x00]
            ++ int32s_bytes [1; 16]
            ++ int32s_bytes [signatures; typeBinary; 0; 16]
            ++ int32s_bytes [signatures; typeBinary; -16; 16],
          None).
Proof.
  split; [apply reverse_Permutation|].
  exact (Write_NewIndex reverse reverse_Permutation signatures []).
Defined.

(** [Write_writes_made] at [sample_index] and [full_disk]. *)
Lemma Write_writes_made_witness :
  (∀ l : list Z, reverse l ≡ₚ l) ∧
  ∃ (w' : recorder limitedWriter) (err : option error) (rs : list (option error)),
    Write reverse sample_index full_disk = Some (sample_index, w', err) ∧
    results w' = results full_disk ++ rs ∧
    rs !! 1%nat = Some err ∧
    length rs = match err with
                | Some _ => 2%nat
                | None => (base.size (entries sample_index) + 4)%nat
                end.
Proof.
  split; [apply reverse_Permutation|].
  exact (Write_writes_made reverse sample_index full_disk reverse_Permutation).
Defined.

(** [Add_compose] at [sample_index]. *)
Lemma Add_compose_witness :
  1000 ≠ 2000 ∧
  Add (Add sample_index 1000 zeroEntry) 2000 (BinaryEntry [x01])
    = Add (Add sample_index 2000 (BinaryEntry [x01])) 1000 zeroEntry ∧
  len_entries (Add sample_index 2000 zeroEntry) = len_entries sample_index + 1 ∧
  len_entries (Add sample_index 1000 zeroEntry) = len_entries sample_index.
Proof.
  assert (Hne : 1000 ≠ 2000) by lia.
  split; [exact Hne|]. split_and!.
  - exact (proj1 (proj2 (Add_compose sample_index 1000 2000 zeroEntry (BinaryEntry [x01]))) Hne).
  - exact (proj2 (proj2 (Add_compose sample_index 2000 2000 zeroEntry zeroEntry))).
  - exact (proj2 (proj2 (Add_compose sample_index 1000 1000 zeroEntry zeroEntry))).
Defined.

(** [Lead_name_read_back] for pkg, 1.0 and 1. *)
Lemma Lead_name_read_back_witness :
  (x00 ∉ (bytes_of_string "pkg" ++ [x2d] ++ bytes_of_string "1.0"
            ++ [x2d] ++ bytes_of_string "1")) ∧
  ∃ b : list byte,
    Lead "pkg" "1.0" "1" = Some b ∧
    head (read_strings [] (slice b 10 66)) = Some (bytes_of_string "pkg-1.0-1").
Proof.
  assert (Hnul : x00 ∉ (bytes_of_string "pkg" ++ [x2d] ++ bytes_of_string "1.0"
                         ++ [x2d] ++ bytes_of_string "1")) by no_NUL.
  split; [exact Hnul|].
  exact (Lead_name_read_back "pkg" "1.0" "1" Hnul).
Defined.

(** [Lead_same_prefix]: the hyphens of the three parts cannot be told
    apart. *)
Lemma Lead_same_prefix_witness :
  take 65 (bytes_of_string "a-b" ++ [x2d] ++ bytes_of_string "1"
             ++ [x2d] ++ bytes_of_string "2")
  = take 65 (bytes_of_string "a" ++ [x2d] ++ bytes_of_string "b-1"
               ++ [x2d] ++ bytes_of_string "2") ∧
  Lead "a-b" "1" "2" = Lead "a" "b-1" "2".
Proof.
  assert (Heq : take 65 (bytes_of_string "a-b" ++ [x2d] ++ bytes_of_string "1"
                           ++ [x2d] ++ bytes_of_string "2")
                = take 65 (bytes_of_string "a" ++ [x2d] ++ bytes_of_string "b-1"
                             ++ [x2d] ++ bytes_of_string "2")) by reflexivity.
  split; [exact Heq|].
  exact (Lead_same_prefix "a-b" "1" "2" "a" "b-1" "2" Heq).
Defined.
